(** * 256-point radix-2 DIT FFT core: model and properties

    A shallow embedding of [src/fft.h] and [src/fft.cpp].

    - [fixed_t] ([ap_fixed<32,16>], default modes [AP_TRN], [AP_WRAP]) is the
      signed 32-bit mantissa, a [Z] in [[-2^31, 2^31)]; the real value is
      the mantissa divided by [2^16].
    - [data_t] ([ap_uint<64>]) is a [Z] in [[0, 2^64)].
    - a C array [fixed_t buf[256]] is a [list Z]; element access is checked
      (an access out of range is [None]).
    - [hls::stream<axis_t>] is a FIFO, a [list axis_t]; [read] on an empty
      stream does not return ([None]). *)

From Stdlib Require Import ZArith QArith Qround Lia Bool Reals Lra Zfloor.
From stdpp Require Import base option list list_numbers.

Local Open Scope Z_scope.

(** ** Constants of [fft.h] *)

Definition FFT_SIZE : Z := 256.
Definition LOG2_FFT_SIZE : Z := 8.

(** ** Fixed-point scalars *)

(** Mantissa of an [ap_fixed<32,16>] *)
Abbreviation fixed_t := Z (only parsing).

Module Fixed.

Definition in_range (x : Z) : Prop := - 2 ^ 31 <= x < 2 ^ 31.

Definition in_rangeb (x : Z) : bool := (- 2 ^ 31 <=? x) && (x <? 2 ^ 31).

(** The 32 raw bits of a mantissa, as [range()] returns them. *)
Definition bits32 (x : Z) : Z := Z.land x (Z.ones 32).

(** Reinterpretation of 32 raw bits as a two's-complement mantissa; this
    is also the [AP_WRAP] overflow mode of an assignment to [fixed_t]. *)
Definition wrap32 (x : Z) : Z :=
  let u := bits32 x in
  if Z.testbit u 31 then u - 2 ^ 32 else u.

(** [a + b]: the sum is exact in [ap_fixed<33,17>]; storing it into a
    [fixed_t] wraps. *)
Definition add (a b : fixed_t) : fixed_t := wrap32 (a + b).

(** [a - b], likewise. *)
Definition sub (a b : fixed_t) : fixed_t := wrap32 (a - b).

(** [(fixed_t)(a * b)]: the product is exact in [ap_fixed<64,32>] (32
    fraction bits); the cast drops the low 16 fraction bits ([AP_TRN],
    towards minus infinity) and wraps the integer part ([AP_WRAP]). *)
Definition mul (a b : fixed_t) : fixed_t := wrap32 (Z.shiftr (a * b) 16).

(** A literal of type [double] converted to [fixed_t]: the value times
    [2^16], quantised by [AP_TRN] (towards minus infinity), wrapped. The
    literal is taken as the decimal fraction that is written. *)
Definition of_literal (q : Q) : fixed_t :=
  wrap32 (Qfloor (q * inject_Z (2 ^ 16))).

End Fixed.

(** ** Packed words ([fft.h]) *)

(** Raw value of an [ap_uint<64>] *)
Abbreviation data_t := Z (only parsing).

(** [x.range(hi, lo)] read *)
Definition get_range (x : Z) (hi lo : Z) : Z :=
  Z.land (Z.shiftr x lo) (Z.ones (hi - lo + 1)).

(** [x.range(hi, lo) = v] *)
Definition set_range (x : Z) (hi lo : Z) (v : Z) : Z :=
  let w := hi - lo + 1 in
  Z.lor (Z.ldiff x (Z.shiftl (Z.ones w) lo))
        (Z.shiftl (Z.land v (Z.ones w)) lo).

(** [pack_data]; [packed0] is the content of the local [packed] before the
    two range assignments. *)
Definition pack_data_from (packed0 : data_t) (real_val imag_val : fixed_t)
  : data_t :=
  let packed := set_range packed0 63 32 (Fixed.bits32 real_val) in
  let packed := set_range packed 31 0 (Fixed.bits32 imag_val) in
  packed.

Definition pack_data (real_val imag_val : fixed_t) : data_t :=
  pack_data_from 0 real_val imag_val.

(** [unpack_data]; the two reference parameters are returned as a pair. *)
Definition unpack_data (packed : data_t) : fixed_t * fixed_t :=
  let real_bits := get_range packed 63 32 in
  let imag_bits := get_range packed 31 0 in
  (Fixed.wrap32 real_bits, Fixed.wrap32 imag_bits).

(** ** Twiddle factor tables ([fft.cpp])

    [W_N^k = cos(-2*pi*k/N) + j*sin(-2*pi*k/N)], [N = 256], [k = 0..127].
    The initialisers are kept as the decimal literals of the source; the
    table a program sees is their conversion to [fixed_t]. *)

Definition TW_REAL_literals : list Q := [
     1.0000000000;  0.9996988187;  0.9987954562;  0.9972904567;
     0.9951847267;  0.9924795346;  0.9891765100;  0.9852776424;
     0.9807852804;  0.9757021300;  0.9700312532;  0.9637760658;
     0.9569403357;  0.9495281806;  0.9415440652;  0.9329927988;
     0.9238795325;  0.9142097557;  0.9039892931;  0.8932243012;
     0.8819212643;  0.8700869911;  0.8577286100;  0.8448535652;
     0.8314696123;  0.8175848132;  0.8032075315;  0.7883464276;
     0.7730104534;  0.7572088465;  0.7409511254;  0.7242470830;
     0.7071067812;  0.6895405447;  0.6715589548;  0.6531728430;
     0.6343932842;  0.6152315906;  0.5956993045;  0.5758081914;
     0.5555702330;  0.5349976199;  0.5141027442;  0.4928981922;
     0.4713967368;  0.4496113297;  0.4275550934;  0.4052413140;
     0.3826834324;  0.3598950365;  0.3368898534;  0.3136817404;
     0.2902846773;  0.2667127575;  0.2429801799;  0.2191012402;
     0.1950903220;  0.1709618888;  0.1467304745;  0.1224106752;
     0.0980171403;  0.0735645636;  0.0490676743;  0.0245412285;
     0.0000000000; -0.0245412285; -0.0490676743; -0.0735645636;
    -0.0980171403; -0.1224106752; -0.1467304745; -0.1709618888;
    -0.1950903220; -0.2191012402; -0.2429801799; -0.2667127575;
    -0.2902846773; -0.3136817404; -0.3368898534; -0.3598950365;
    -0.3826834324; -0.4052413140; -0.4275550934; -0.4496113297;
    -0.4713967368; -0.4928981922; -0.5141027442; -0.5349976199;
    -0.5555702330; -0.5758081914; -0.5956993045; -0.6152315906;
    -0.6343932842; -0.6531728430; -0.6715589548; -0.6895405447;
    -0.7071067812; -0.7242470830; -0.7409511254; -0.7572088465;
    -0.7730104534; -0.7883464276; -0.8032075315; -0.8175848132;
    -0.8314696123; -0.8448535652; -0.8577286100; -0.8700869911;
    -0.8819212643; -0.8932243012; -0.9039892931; -0.9142097557;
    -0.9238795325; -0.9329927988; -0.9415440652; -0.9495281806;
    -0.9569403357; -0.9637760658; -0.9700312532; -0.9757021300;
    -0.9807852804; -0.9852776424; -0.9891765100; -0.9924795346;
    -0.9951847267; -0.9972904567; -0.9987954562; -0.9996988187
]%Q.

Definition TW_IMAG_literals : list Q := [
     0.0000000000; -0.0245412285; -0.0490676743; -0.0735645636;
    -0.0980171403; -0.1224106752; -0.1467304745; -0.1709618888;
    -0.1950903220; -0.2191012402; -0.2429801799; -0.2667127575;
    -0.2902846773; -0.3136817404; -0.3368898534; -0.3598950365;
    -0.3826834324; -0.4052413140; -0.4275550934; -0.4496113297;
    -0.4713967368; -0.4928981922; -0.5141027442; -0.5349976199;
    -0.5555702330; -0.5758081914; -0.5956993045; -0.6152315906;
    -0.6343932842; -0.6531728430; -0.6715589548; -0.6895405447;
    -0.7071067812; -0.7242470830; -0.7409511254; -0.7572088465;
    -0.7730104534; -0.7883464276; -0.8032075315; -0.8175848132;
    -0.8314696123; -0.8448535652; -0.8577286100; -0.8700869911;
    -0.8819212643; -0.8932243012; -0.9039892931; -0.9142097557;
    -0.9238795325; -0.9329927988; -0.9415440652; -0.9495281806;
    -0.9569403357; -0.9637760658; -0.9700312532; -0.9757021300;
    -0.9807852804; -0.9852776424; -0.9891765100; -0.9924795346;
    -0.9951847267; -0.9972904567; -0.9987954562; -0.9996988187;
    -1.0000000000; -0.9996988187; -0.9987954562; -0.9972904567;
    -0.9951847267; -0.9924795346; -0.9891765100; -0.9852776424;
    -0.9807852804; -0.9757021300; -0.9700312532; -0.9637760658;
    -0.9569403357; -0.9495281806; -0.9415440652; -0.9329927988;
    -0.9238795325; -0.9142097557; -0.9039892931; -0.8932243012;
    -0.8819212643; -0.8700869911; -0.8577286100; -0.8448535652;
    -0.8314696123; -0.8175848132; -0.8032075315; -0.7883464276;
    -0.7730104534; -0.7572088465; -0.7409511254; -0.7242470830;
    -0.7071067812; -0.6895405447; -0.6715589548; -0.6531728430;
    -0.6343932842; -0.6152315906; -0.5956993045; -0.5758081914;
    -0.5555702330; -0.5349976199; -0.5141027442; -0.4928981922;
    -0.4713967368; -0.4496113297; -0.4275550934; -0.4052413140;
    -0.3826834324; -0.3598950365; -0.3368898534; -0.3136817404;
    -0.2902846773; -0.2667127575; -0.2429801799; -0.2191012402;
    -0.1950903220; -0.1709618888; -0.1467304745; -0.1224106752;
    -0.0980171403; -0.0735645636; -0.0490676743; -0.0245412285
]%Q.

(** A literal reaches the conversion as the nearest [double], within a
    relative error of [2^-53]. That cannot change the result when the
    literal times [2^16] is an integer that a [double] represents exactly,
    or lies at least [1/128] away from every integer. *)
Definition literal_robust (q : Q) : bool :=
  let x := (q * inject_Z (2 ^ 16))%Q in
  let frac := (x - inject_Z (Qfloor x))%Q in
  Qeq_bool frac 0 || (Qle_bool (1 # 128) frac && Qle_bool frac (127 # 128)).

Definition TW_REAL : list fixed_t :=
  Eval vm_compute in map Fixed.of_literal TW_REAL_literals.

Definition TW_IMAG : list fixed_t :=
  Eval vm_compute in map Fixed.of_literal TW_IMAG_literals.

(** ** Arrays, loops and streams *)

(** [buf[i]] read; [None] when [i] is out of range. *)
Definition load (buf : list fixed_t) (i : Z) : option fixed_t :=
  if 0 <=? i then buf !! Z.to_nat i else None.

(** [buf[i] = v]; [None] when [i] is out of range. *)
Definition store (buf : list fixed_t) (i : Z) (v : fixed_t)
  : option (list fixed_t) :=
  if (0 <=? i) && (i <? Z.of_nat (length buf))
  then Some (<[Z.to_nat i := v]> buf) else None.

(** [for (int i = lo; i < lo + n; i++) body], the state threaded through
    a body that can fail. The counters of the source stay below 256, far
    from the limits of [int]. *)
Fixpoint for_loop {St : Type} (n : nat) (lo : Z)
    (body : Z → St → option St) (s : St) : option St :=
  match n with
  | O => Some s
  | S n' => s' ← body lo s; for_loop n' (lo + 1) body s'
  end.

(** A local array before its first write. Each loop of the source that
    fills a local array writes all 256 elements before any is read. *)
Definition fresh_buf : list fixed_t := replicate (Z.to_nat FFT_SIZE) 0.

(** [ap_axiu<64,0,0,0>]: [data] has 64 bits, [keep] and [strb] one bit per
    data byte (8 bits), [last] one bit. *)
Record axis_t := mk_axis {
  data : data_t;
  keep : Z;
  strb : Z;
  last : Z
}.

(** Assignment of an [int] to an [ap_uint<w>] *)
Definition to_ap_uint (w : Z) (x : Z) : Z := Z.land x (Z.ones w).

Definition stream := list axis_t.

(** [s.read()]: blocks ([None]) on an empty stream. *)
Definition stream_read (s : stream) : option (axis_t * stream) :=
  match s with
  | [] => None
  | val :: s' => Some (val, s')
  end.

(** [s.write(val)] *)
Definition stream_write (s : stream) (val : axis_t) : stream := s ++ [val].

(** ** The four tasks of [fft.cpp] *)

(** [rev[n] = b] on an [ap_uint] *)
Definition assign_bit (rev : Z) (n : Z) (b : bool) : Z :=
  if b then Z.setbit rev n else Z.clearbit rev n.

Definition bit_reverse_idx (idx : Z) : Z :=
  let idx := to_ap_uint LOG2_FFT_SIZE idx in
  foldl (λ rev i, assign_bit rev (LOG2_FFT_SIZE - 1 - i) (Z.testbit idx i))
        0 (seqZ 0 LOG2_FFT_SIZE).

(** The body of [READ_LOOP]. *)
Definition read_word (i : Z) (st : stream * list fixed_t * list fixed_t)
  : option (stream * list fixed_t * list fixed_t) :=
  let '(in_stream, real_buf, imag_buf) := st in
  '(val, in_stream) ← stream_read in_stream;
  let '(re, im) := unpack_data (data val) in
  real_buf ← store real_buf i re;
  imag_buf ← store imag_buf i im;
  Some (in_stream, real_buf, imag_buf).

Definition read_input (in_stream : stream) (real_buf imag_buf : list fixed_t)
  : option (stream * list fixed_t * list fixed_t) :=
  for_loop (Z.to_nat FFT_SIZE) 0 read_word (in_stream, real_buf, imag_buf).

(** The body of [BIT_REV_LOOP]. *)
Definition bit_reverse_elem (in_real in_imag : list fixed_t) (i : Z)
    (out : list fixed_t * list fixed_t)
  : option (list fixed_t * list fixed_t) :=
  let '(out_real, out_imag) := out in
  let rev := bit_reverse_idx i in
  x ← load in_real i;
  out_real ← store out_real rev x;
  y ← load in_imag i;
  out_imag ← store out_imag rev y;
  Some (out_real, out_imag).

Definition bit_reverse (in_real in_imag out_real out_imag : list fixed_t)
  : option (list fixed_t * list fixed_t) :=
  for_loop (Z.to_nat FFT_SIZE) 0 (bit_reverse_elem in_real in_imag)
           (out_real, out_imag).

(** [dst[i] = src[i]] on a pair of arrays, the body of [COPY_IN] and
    [COPY_OUT]. *)
Definition copy_elem (src_real src_imag : list fixed_t) (i : Z)
    (dst : list fixed_t * list fixed_t)
  : option (list fixed_t * list fixed_t) :=
  let '(dst_real, dst_imag) := dst in
  x ← load src_real i;
  dst_real ← store dst_real i x;
  y ← load src_imag i;
  dst_imag ← store dst_imag i y;
  Some (dst_real, dst_imag).

(** The index computations of one butterfly. *)
Record bfly_idx := mk_idx {
  idx_top : Z;
  idx_bot : Z;
  tw_idx : Z
}.

(** [half], [tw_stride], [j] and [group] of the source, on [int]s; all
    values stay within [[0, 256]]. *)
Definition stage_half (stage : Z) : Z := Z.shiftl 1 stage.
Definition stage_tw_stride (stage : Z) : Z := Z.shiftr FFT_SIZE (stage + 1).
Definition bfly_j (stage k : Z) : Z := Z.land k (stage_half stage - 1).
Definition bfly_group (stage k : Z) : Z :=
  Z.shiftl (Z.shiftr k stage) (stage + 1).

Definition butterfly_idx (stage k : Z) : bfly_idx :=
  let half := stage_half stage in
  let tw_stride := stage_tw_stride stage in
  let j := bfly_j stage k in
  let group := bfly_group stage k in
  {| idx_top := group + j;
     idx_bot := group + j + half;
     tw_idx := j * tw_stride |}.

(** The body of [BUTTERFLY_LOOP]. *)
Definition butterfly (stage k : Z) (w : list fixed_t * list fixed_t)
  : option (list fixed_t * list fixed_t) :=
  let '(wr, wi) := w in
  let ix := butterfly_idx stage k in
  tw_r ← load TW_REAL (tw_idx ix);
  tw_i ← load TW_IMAG (tw_idx ix);
  ar ← load wr (idx_top ix);
  ai ← load wi (idx_top ix);
  br ← load wr (idx_bot ix);
  bi ← load wi (idx_bot ix);
  let tr := Fixed.sub (Fixed.mul br tw_r) (Fixed.mul bi tw_i) in
  let ti := Fixed.add (Fixed.mul br tw_i) (Fixed.mul bi tw_r) in
  wr ← store wr (idx_top ix) (Fixed.add ar tr);
  wi ← store wi (idx_top ix) (Fixed.add ai ti);
  wr ← store wr (idx_bot ix) (Fixed.sub ar tr);
  wi ← store wi (idx_bot ix) (Fixed.sub ai ti);
  Some (wr, wi).

(** [STAGE_LOOP] with [BUTTERFLY_LOOP] inside. *)
Definition stage_loop (w : list fixed_t * list fixed_t)
  : option (list fixed_t * list fixed_t) :=
  for_loop (Z.to_nat LOG2_FFT_SIZE) 0
    (λ stage w, for_loop (Z.to_nat (FFT_SIZE / 2)) 0 (butterfly stage) w) w.

Definition fft_stages (in_real in_imag out_real out_imag : list fixed_t)
  : option (list fixed_t * list fixed_t) :=
  w ← for_loop (Z.to_nat FFT_SIZE) 0 (copy_elem in_real in_imag)
        (fresh_buf, fresh_buf);
  '(wr, wi) ← stage_loop w;
  for_loop (Z.to_nat FFT_SIZE) 0 (copy_elem wr wi) (out_real, out_imag).

(** The word that [WRITE_LOOP] builds at counter [i]. *)
Definition output_word (re im : fixed_t) (i : Z) : axis_t :=
  {| data := pack_data re im;
     keep := to_ap_uint 8 (-1);
     strb := to_ap_uint 8 (-1);
     last := if i =? FFT_SIZE - 1 then 1 else 0 |}.

(** The body of [WRITE_LOOP]. *)
Definition write_word (real_buf imag_buf : list fixed_t) (i : Z)
    (out_stream : stream) : option stream :=
  re ← load real_buf i;
  im ← load imag_buf i;
  let val := output_word re im i in
  Some (stream_write out_stream val).

Definition write_output (real_buf imag_buf : list fixed_t)
    (out_stream : stream) : option stream :=
  for_loop (Z.to_nat FFT_SIZE) 0 (write_word real_buf imag_buf) out_stream.

(** The 256 words written for a pair of buffers. *)
Definition output_frame (real_buf imag_buf : list fixed_t) : list axis_t :=
  (λ n, output_word (real_buf !!! Z.to_nat n) (imag_buf !!! Z.to_nat n) n)
    <$> seqZ 0 FFT_SIZE.

(** ** Top level *)

(** [fft(in_stream, out_stream)]: the two streams after the call. *)
Definition fft (in_stream out_stream : stream) : option (stream * stream) :=
  '(in_stream, in_real, in_imag) ← read_input in_stream fresh_buf fresh_buf;
  '(rev_real, rev_imag) ← bit_reverse in_real in_imag fresh_buf fresh_buf;
  '(out_real, out_imag) ← fft_stages rev_real rev_imag fresh_buf fresh_buf;
  out_stream ← write_output out_real out_imag out_stream;
  Some (in_stream, out_stream).

(** ** Test frames *)

(** A word as the test bench sends it: sample [n] of a frame. *)
Definition sample_word (re im : fixed_t) (n : Z) : axis_t :=
  {| data := pack_data re im;
     keep := to_ap_uint 8 (-1);
     strb := to_ap_uint 8 (-1);
     last := if n =? FFT_SIZE - 1 then 1 else 0 |}.

(** Scenario 6 of the design document: 256 words, [last] set on word 128
    and on no other. *)
Definition misframed_frame : stream :=
  (λ n, {| data := pack_data 0 0;
           keep := to_ap_uint 8 (-1);
           strb := to_ap_uint 8 (-1);
           last := if n =? 128 then 1 else 0 |}) <$> seqZ 0 FFT_SIZE.

(** The real and the imaginary part that a word carries. *)
Definition word_real (val : axis_t) : fixed_t := (unpack_data (data val)).1.
Definition word_imag (val : axis_t) : fixed_t := (unpack_data (data val)).2.

(** The frame whose 256 samples all equal [(c, 0)]. *)
Definition const_frame (c : fixed_t) : stream :=
  (λ n, sample_word c 0 n) <$> seqZ 0 FFT_SIZE.

(** The frame with the sample [(c, 0)] at position 0 and [(0, 0)] at the
    255 other positions. *)
Definition impulse_frame (c : fixed_t) : stream :=
  (λ n, sample_word (if n =? 0 then c else 0) 0 n) <$> seqZ 0 FFT_SIZE.

(** ** The design document's formulation

    Index arithmetic and fixed-point operations written the way the design
    document words them, to be compared with the code above. The
    arithmetic works on raw 32-bit and 64-bit patterns. *)

Module Spec.

Definition half (stage : Z) : Z := 2 ^ stage.
Definition tw_stride (stage : Z) : Z := 128 / half stage.
Definition j (stage k : Z) : Z := k mod half stage.
Definition group (stage k : Z) : Z := (k / half stage) * (2 * half stage).
Definition top (stage k : Z) : Z := group stage k + j stage k.
Definition bot (stage k : Z) : Z := group stage k + j stage k + half stage.
Definition tw_idx (stage k : Z) : Z := j stage k * tw_stride stage.

(** Sign extension of a 32-bit pattern to a 64-bit pattern. *)
Definition sext64 (u : Z) : Z :=
  if Z.testbit u 31 then Z.lor u (Z.shiftl (Z.ones 32) 32) else u.

(** 64-bit multiplication: the low 64 bits of the product. *)
Definition mul64 (x y : Z) : Z := Z.land (x * y) (Z.ones 64).

(** Arithmetic right shift of a 64-bit pattern: the sign bit is
    replicated into the vacated positions. *)
Definition asr64 (x n : Z) : Z :=
  let signed := if Z.testbit x 63 then x - 2 ^ 64 else x in
  Z.land (Z.shiftr signed n) (Z.ones 64).

Definition low32 (x : Z) : Z := Z.land x (Z.ones 32).

Definition mul_bits (a b : Z) : Z :=
  low32 (asr64 (mul64 (sext64 a) (sext64 b)) 16).
Definition add_bits (a b : Z) : Z := (a + b) mod 2 ^ 32.
Definition sub_bits (a b : Z) : Z := (a - b) mod 2 ^ 32.

(** The same operations on [fixed_t] values, through their patterns. *)
Definition mul (a b : fixed_t) : fixed_t :=
  Fixed.wrap32 (mul_bits (Fixed.bits32 a) (Fixed.bits32 b)).
Definition add (a b : fixed_t) : fixed_t :=
  Fixed.wrap32 (add_bits (Fixed.bits32 a) (Fixed.bits32 b)).
Definition sub (a b : fixed_t) : fixed_t :=
  Fixed.wrap32 (sub_bits (Fixed.bits32 a) (Fixed.bits32 b)).

(** One butterfly: loads, twiddled lower operand, write back. *)
Definition butterfly (stage k : Z) (w : list fixed_t * list fixed_t)
  : list fixed_t * list fixed_t :=
  let '(wr, wi) := w in
  let t := Z.to_nat (top stage k) in
  let b := Z.to_nat (bot stage k) in
  let tw_r := TW_REAL !!! Z.to_nat (tw_idx stage k) in
  let tw_i := TW_IMAG !!! Z.to_nat (tw_idx stage k) in
  let ar := wr !!! t in
  let ai := wi !!! t in
  let br := wr !!! b in
  let bi := wi !!! b in
  let tr := sub (mul br tw_r) (mul bi tw_i) in
  let ti := add (mul br tw_i) (mul bi tw_r) in
  (<[b := sub ar tr]> (<[t := add ar tr]> wr),
   <[b := sub ai ti]> (<[t := add ai ti]> wi)).

(** The angle of twiddle factor [k]: [-2 * pi * k / 256]. *)
Definition twiddle_angle (k : nat) : R := (- (2 * PI * INR k / 256))%R.

(** Rounding of a real number toward zero. *)
Definition round_toward_zero (x : R) : Z :=
  if Rle_dec 0 x then Zfloor x else Zceil x.

(** [from_double]: [round_toward_zero (x * 65536)] as a signed 32-bit
    integer, wrapped if out of range. The double is taken as the real
    number it approximates. *)
Definition from_double (x : R) : fixed_t :=
  Fixed.wrap32 (round_toward_zero (x * 65536)).

(** A frame violates the framing rule when a word before the 256th
    carries [last], or the 256th does not. *)
Definition framing_violation (frame : list axis_t) : bool :=
  existsb (λ n, match frame !! Z.to_nat n with
                | Some val =>
                    if n <? 255 then negb (last val =? 0) else last val =? 0
                | None => false
                end)
          (seqZ 0 256).

End Spec.

(** ** Coefficient buffers

    A buffer whose elements are all multiples [wrap32 (m * c)] of one
    unknown sample [c] is described by the list of the coefficients [m].
    The butterfly acts on coefficients as long as every product it forms
    has a zero operand or the twiddle factor [1.0]. *)

Module Coef.

Definition mul (m tw : Z) : option Z :=
  if m =? 0 then Some 0
  else if tw =? 2 ^ 16 then Some m
  else if tw =? 0 then Some 0
  else None.

Definition butterfly (stage k : Z) (w : list Z * list Z)
  : option (list Z * list Z) :=
  let '(wr, wi) := w in
  let ix := butterfly_idx stage k in
  tw_r ← load TW_REAL (tw_idx ix);
  tw_i ← load TW_IMAG (tw_idx ix);
  ar ← load wr (idx_top ix);
  ai ← load wi (idx_top ix);
  br ← load wr (idx_bot ix);
  bi ← load wi (idx_bot ix);
  brr ← mul br tw_r;
  bii ← mul bi tw_i;
  bri ← mul br tw_i;
  bir ← mul bi tw_r;
  let tr := brr - bii in
  let ti := bri + bir in
  wr ← store wr (idx_top ix) (ar + tr);
  wi ← store wi (idx_top ix) (ai + ti);
  wr ← store wr (idx_bot ix) (ar - tr);
  wi ← store wi (idx_bot ix) (ai - ti);
  Some (wr, wi).

Definition stage_loop (w : list Z * list Z) : option (list Z * list Z) :=
  for_loop (Z.to_nat LOG2_FFT_SIZE) 0
    (λ stage w, for_loop (Z.to_nat (FFT_SIZE / 2)) 0 (butterfly stage) w) w.

(** The value described by coefficient [m] for the sample [c], and the
    buffer described by coefficients [ms]. *)
Definition scale (c m : Z) : fixed_t := Fixed.wrap32 (m * c).
Definition conc (c : Z) (ms : list Z) : list fixed_t := scale c <$> ms.

End Coef.

(** ** Enclosures of cosine and sine

    Integer bounds, scaled by [D], on the cosine and the sine of the
    multiples of [pi / 128] in the first quadrant: by halving the right
    angle six times, then rotating by [pi / 128] step by step. They
    serve to decide the integer part of the scaled twiddle factors. *)

Module Trig.

Definition D : Z := 2 ^ 64.

(** The quotient by [D], rounded toward minus infinity. *)
Definition quot (n : Z) : Z := Z.shiftr n 64.

Record encl := mk_encl { clo : Z; chi : Z; slo : Z; shi : Z }.

(** Bounds on [D * cos y] from bounds on [D * cos (2 * y)]. *)
Definition half_lo (lo : Z) : Z := Z.sqrt ((D * D + D * lo) / 2).
Definition half_hi (hi : Z) : Z := Z.sqrt ((D * D + D * hi) / 2) + 1.

(** Bounds on [D * cos (pi / 2 ^ (n + 1))]. *)
Fixpoint cos_half (n : nat) : Z * Z :=
  match n with
  | O => (0, 0)
  | S n' => let '(lo, hi) := cos_half n' in (half_lo lo, half_hi hi)
  end.

(** The enclosure of [pi / 128]: the cosine from six halvings, the sine
    from the cosine of [pi / 64]. *)
Definition base_of_halves : encl :=
  let '(lo2, hi2) := cos_half 5 in
  let '(lo, hi) := cos_half 6 in
  {| clo := lo; chi := hi;
     slo := Z.sqrt ((D * D - D * hi2) / 2);
     shi := Z.sqrt ((D * D - D * lo2) / 2) + 1 |}.

Definition base : encl := Eval vm_compute in base_of_halves.

(** From an enclosure of [x] to one of [x + pi / 128]. *)
Definition rot (e : encl) : encl :=
  {| clo := quot (clo e * clo base - shi e * shi base);
     chi := quot (chi e * chi base - slo e * slo base) + 1;
     slo := quot (slo e * clo base + clo e * slo base);
     shi := quot (shi e * chi base + chi e * shi base) + 1 |}.

(** The enclosure of [m * pi / 128]. *)
Fixpoint angle (m : nat) : encl :=
  match m with
  | O => {| clo := D; chi := D; slo := 0; shi := 0 |}
  | S m' => rot (angle m')
  end.

Definition nonneg (e : encl) : bool := (0 <=? clo e) && (0 <=? slo e).

(** The integer part of [65536 * x] when the bounds [lo <= D * x <= hi]
    determine it. *)
Definition floor_of (lo hi : Z) : option Z :=
  let t := quot (2 ^ 16 * lo) in
  if 2 ^ 16 * hi <? (t + 1) * D then Some t else None.

(** The integer parts of [65536 * cos] and [65536 * sin] of the angle
    of twiddle factor [k]. *)
Definition tw_real_floor (k : nat) : option Z :=
  if (k <? 64)%nat
  then let e := angle k in floor_of (clo e) (chi e)
  else let e := angle (k - 64) in floor_of (- shi e) (- slo e).

Definition tw_imag_floor (k : nat) : option Z :=
  if (k <? 64)%nat
  then let e := angle k in floor_of (- shi e) (- slo e)
  else let e := angle (k - 64) in floor_of (- chi e) (- clo e).

Definition table_entry_ok (k : nat) : bool :=
  match TW_REAL !! k, tw_real_floor k, TW_IMAG !! k, tw_imag_floor k with
  | Some r, Some r', Some i, Some i' => (r =? r') && (i =? i')
  | _, _, _, _ => false
  end.

Definition theta : R := (PI / 128)%R.

Definition sound (e : encl) (x : R) : Prop :=
  (IZR (clo e) <= cos x * IZR D <= IZR (chi e))%R ∧
  (IZR (slo e) <= sin x * IZR D <= IZR (shi e))%R.

End Trig.

(** ** The test bench ([fft_tb.cpp])

    The loop of [main] that reads the 256 results, as far as the flag
    [tlast_error] is concerned; the magnitudes that the same loop computes
    in floating point do not enter it. *)
Definition tb_check_word (i : Z) (st : stream * Z) : option (stream * Z) :=
  let '(out_stream, tlast_error) := st in
  '(result, out_stream) ← stream_read out_stream;
  let tlast_error :=
    if i =? FFT_SIZE - 1
    then (if negb (last result =? 1) then 1 else tlast_error)
    else (if negb (last result =? 0) then 1 else tlast_error) in
  Some (out_stream, tlast_error).

Definition tb_check_tlast (out_stream : stream) : option (stream * Z) :=
  for_loop (Z.to_nat FFT_SIZE) 0 tb_check_word (out_stream, 0).

(** ** Auxiliary definitions for the properties below *)

(** The bit-reversed indices, in order, as naturals. *)
Definition bit_reversed_indices : list nat :=
  (λ n, Z.to_nat (bit_reverse_idx (Z.of_nat n))) <$> seq 0 256.

(** The butterfly that owns element [n] in a stage. *)
Definition owner (stage n : Z) : Z :=
  n / (2 * 2 ^ stage) * 2 ^ stage + n mod 2 ^ stage.

(** The checks of one pair of table entries: magnitudes, modulus and the
    quarter-turn relation between the two tables. *)
Definition twiddle_entry_ok (k : nat) : bool :=
  match TW_REAL !! k, TW_IMAG !! k with
  | Some r, Some i =>
      (Z.abs r <=? 2 ^ 16) && (Z.abs i <=? 2 ^ 16) &&
      (Z.abs (r * r + i * i - 2 ^ 32) <? 2 ^ 18) &&
      ((64 <=? k)%nat || bool_decide (TW_REAL !! (k + 64)%nat = Some i))
  | _, _ => false
  end.

(** ** The butterflies over unbounded integers

    The butterfly of the source with every addition, subtraction and
    multiplication carried out without the wrap to 32 bits; a run of the
    code that equals this one has not overflowed. *)

Module Exact.

Definition mul (a b : Z) : Z := Z.shiftr (a * b) 16.

Definition butterfly (stage k : Z) (w : list Z * list Z)
  : option (list Z * list Z) :=
  let '(wr, wi) := w in
  let ix := butterfly_idx stage k in
  tw_r ← load TW_REAL (tw_idx ix);
  tw_i ← load TW_IMAG (tw_idx ix);
  ar ← load wr (idx_top ix);
  ai ← load wi (idx_top ix);
  br ← load wr (idx_bot ix);
  bi ← load wi (idx_bot ix);
  let tr := mul br tw_r - mul bi tw_i in
  let ti := mul br tw_i + mul bi tw_r in
  wr ← store wr (idx_top ix) (ar + tr);
  wi ← store wi (idx_top ix) (ai + ti);
  wr ← store wr (idx_bot ix) (ar - tr);
  wi ← store wi (idx_bot ix) (ai - ti);
  Some (wr, wi).

Definition stage_loop (w : list Z * list Z) : option (list Z * list Z) :=
  for_loop (Z.to_nat LOG2_FFT_SIZE) 0
    (λ stage w, for_loop (Z.to_nat (FFT_SIZE / 2)) 0 (butterfly stage) w) w.

End Exact.

(** ** Magnitude bounds

    A buffer of bounds [b] describes the buffers whose elements [x]
    satisfy [|x| <= b], position by position. The butterfly on bounds
    fails as soon as a bound reaches [2^31]. *)

Module Bound.

Definition mul (b tw : Z) : Z := b * Z.abs tw / 2 ^ 16 + 1.

Definition butterfly (stage k : Z) (w : list Z * list Z)
  : option (list Z * list Z) :=
  let '(wr, wi) := w in
  let ix := butterfly_idx stage k in
  tw_r ← load TW_REAL (tw_idx ix);
  tw_i ← load TW_IMAG (tw_idx ix);
  ar ← load wr (idx_top ix);
  ai ← load wi (idx_top ix);
  br ← load wr (idx_bot ix);
  bi ← load wi (idx_bot ix);
  let tr := mul br tw_r + mul bi tw_i in
  let ti := mul br tw_i + mul bi tw_r in
  if (ar + tr <? 2 ^ 31) && (ai + ti <? 2 ^ 31) then
    wr ← store wr (idx_top ix) (ar + tr);
    wi ← store wi (idx_top ix) (ai + ti);
    wr ← store wr (idx_bot ix) (ar + tr);
    wi ← store wi (idx_bot ix) (ai + ti);
    Some (wr, wi)
  else None.

Definition stage_loop (w : list Z * list Z) : option (list Z * list Z) :=
  for_loop (Z.to_nat LOG2_FFT_SIZE) 0
    (λ stage w, for_loop (Z.to_nat (FFT_SIZE / 2)) 0 (butterfly stage) w) w.

Definition within (b x : Z) : Prop := Z.abs x <= b.

Definition bounded (B w : list Z * list Z) : Prop :=
  Forall2 within B.1 w.1 ∧ Forall2 within B.2 w.2.

End Bound.

(** ** Partial sums

    An element known to hold the wrapped sum of the input elements
    [lo .. hi - 1] of its buffer is described by [Range lo hi]; [Top]
    describes any element. The butterfly on descriptions follows the sums
    through the butterflies whose twiddle factor is [1.0]. *)

Module Sums.

Inductive aval := Range (lo hi : nat) | Top.

Definition join (a b : aval) : aval :=
  match a, b with
  | Range lo m, Range m' hi =>
      if (m =? m')%nat && (lo <=? m)%nat && (m <=? hi)%nat
      then Range lo hi else Top
  | _, _ => Top
  end.

Definition aload (buf : list aval) (i : Z) : option aval :=
  if 0 <=? i then buf !! Z.to_nat i else None.

Definition astore (buf : list aval) (i : Z) (v : aval)
  : option (list aval) :=
  if (0 <=? i) && (i <? Z.of_nat (length buf))
  then Some (<[Z.to_nat i := v]> buf) else None.

Definition butterfly (stage k : Z) (w : list aval * list aval)
  : option (list aval * list aval) :=
  let '(wr, wi) := w in
  let ix := butterfly_idx stage k in
  tw_r ← load TW_REAL (tw_idx ix);
  tw_i ← load TW_IMAG (tw_idx ix);
  ar ← aload wr (idx_top ix);
  ai ← aload wi (idx_top ix);
  br ← aload wr (idx_bot ix);
  bi ← aload wi (idx_bot ix);
  let unit := (tw_r =? 2 ^ 16) && (tw_i =? 0) in
  wr ← astore wr (idx_top ix) (if unit then join ar br else Top);
  wi ← astore wi (idx_top ix) (if unit then join ai bi else Top);
  wr ← astore wr (idx_bot ix) Top;
  wi ← astore wi (idx_bot ix) Top;
  Some (wr, wi).

Definition stage_loop (w : list aval * list aval)
  : option (list aval * list aval) :=
  for_loop (Z.to_nat LOG2_FFT_SIZE) 0
    (λ stage w, for_loop (Z.to_nat (FFT_SIZE / 2)) 0 (butterfly stage) w) w.

(** Every element holds itself. *)
Definition singles : list aval := (λ n, Range n (S n)) <$> seq 0 256.

Definition sum (l : list Z) : Z := foldr Z.add 0 l.

Definition describes (x : list Z) (a : aval) (v : Z) : Prop :=
  match a with
  | Range lo hi => v = Fixed.wrap32 (sum (take (hi - lo) (drop lo x)))
  | Top => True
  end.

Definition described (xr xi : list Z)
    (A : list aval * list aval) (w : list Z * list Z) : Prop :=
  Forall2 (describes xr) A.1 w.1 ∧ Forall2 (describes xi) A.2 w.2.

End Sums.

(** * Properties *)

(** ** Fixed-point scalars *)

Section FixedFacts.
Import Fixed.

Lemma bits32_mod x : bits32 x = x mod 2 ^ 32.
Proof. unfold bits32. now rewrite Z.land_ones by lia. Qed.

Lemma bits32_range x : 0 <= bits32 x < 2 ^ 32.
Proof. rewrite bits32_mod. apply Z.mod_pos_bound. lia. Qed.

(** The top bit of a [(w+1)]-bit pattern is its comparison with [2^w]. *)
Lemma testbit_top w u :
  0 <= w → 0 <= u < 2 ^ (w + 1) → Z.testbit u w = (2 ^ w <=? u).
Proof.
  intros Hw Hu. rewrite Z.pow_add_r in Hu by lia. change (2 ^ 1) with 2 in Hu.
  destruct (Z.leb_spec (2 ^ w) u) as [H|H].
  - apply Z.testbit_true; [lia|].
    assert (u / 2 ^ w = 1) as ->
      by (symmetry; apply Z.div_unique with (u - 2 ^ w); lia).
    reflexivity.
  - apply Z.testbit_false; [lia|]. now rewrite Z.div_small by lia.
Qed.

Lemma testbit_31 u : 0 <= u < 2 ^ 32 → Z.testbit u 31 = (2 ^ 31 <=? u).
Proof. intros Hu. now apply (testbit_top 31). Qed.

(** [wrap32] is the signed residue modulo [2^32]. *)
Lemma wrap32_mod x : wrap32 x = (x + 2 ^ 31) mod 2 ^ 32 - 2 ^ 31.
Proof.
  unfold wrap32. cbv zeta. pose proof (bits32_range x) as Hr.
  rewrite testbit_31 by assumption. rewrite bits32_mod in *.
  destruct (Z.leb_spec (2 ^ 31) (x mod 2 ^ 32)); Z.div_mod_to_equations; lia.
Qed.

Lemma wrap32_range x : in_range (wrap32 x).
Proof.
  rewrite wrap32_mod. unfold in_range.
  pose proof (Z.mod_pos_bound (x + 2 ^ 31) (2 ^ 32)). lia.
Qed.

Lemma wrap32_id x : in_range x → wrap32 x = x.
Proof.
  unfold in_range. intros H. rewrite wrap32_mod, Z.mod_small; lia.
Qed.

Lemma wrap32_bits32 x : wrap32 (bits32 x) = wrap32 x.
Proof.
  rewrite !wrap32_mod, bits32_mod. f_equal.
  rewrite <- Zplus_mod_idemp_l. rewrite Z.mod_mod by lia.
  now rewrite Zplus_mod_idemp_l.
Qed.

Lemma bits32_wrap32 x : bits32 (wrap32 x) = bits32 x.
Proof.
  rewrite wrap32_mod, !bits32_mod.
  rewrite Zminus_mod_idemp_l.
  f_equal. lia.
Qed.

Lemma wrap32_eq_mod a b : a mod 2 ^ 32 = b mod 2 ^ 32 → wrap32 a = wrap32 b.
Proof.
  intros H. rewrite <- (wrap32_bits32 a), <- (wrap32_bits32 b).
  now rewrite !bits32_mod, H.
Qed.

Lemma wrap32_add a b : wrap32 (wrap32 a + wrap32 b) = wrap32 (a + b).
Proof.
  apply wrap32_eq_mod. rewrite <- !bits32_mod.
  rewrite !bits32_mod, Zplus_mod, <- !bits32_mod, !bits32_wrap32.
  now rewrite !bits32_mod, <- Zplus_mod.
Qed.

Lemma wrap32_sub a b : wrap32 (wrap32 a - wrap32 b) = wrap32 (a - b).
Proof.
  apply wrap32_eq_mod.
  rewrite Zminus_mod, <- !bits32_mod, !bits32_wrap32.
  now rewrite !bits32_mod, <- Zminus_mod.
Qed.

Lemma add_range a b : in_range (add a b).
Proof. apply wrap32_range. Qed.

Lemma sub_range a b : in_range (sub a b).
Proof. apply wrap32_range. Qed.

(** Multiplication by the pattern of [1.0] is exact. *)
Lemma mul_one_r a : in_range a → mul a (2 ^ 16) = a.
Proof.
  intros H. unfold mul.
  rewrite Z.shiftr_div_pow2, Z.div_mul by lia. now apply wrap32_id.
Qed.

Lemma mul_0_r a : mul a 0 = 0.
Proof. unfold mul. now rewrite Z.mul_0_r. Qed.

End FixedFacts.

(** ** Packed words *)

Ltac bit_cases :=
  repeat match goal with
         | |- context [?a <? ?b] => destruct (Z.ltb_spec a b)
         | |- context [?a <=? ?b] => destruct (Z.leb_spec a b)
         end;
  simpl; rewrite ?andb_false_r, ?orb_false_r, ?andb_true_r;
  try reflexivity; try lia.

Lemma testbit_get_range x hi lo n :
  0 <= lo → lo <= hi + 1 → 0 <= n →
  Z.testbit (get_range x hi lo) n = Z.testbit x (n + lo) && (n <? hi - lo + 1).
Proof.
  intros Hlo Hhi Hn. unfold get_range.
  rewrite Z.land_spec, Z.shiftr_spec, Z.testbit_ones_nonneg by lia.
  reflexivity.
Qed.

Lemma testbit_set_range x hi lo v n :
  0 <= lo → lo <= hi + 1 → 0 <= n →
  Z.testbit (set_range x hi lo v) n =
  if (lo <=? n) && (n <=? hi) then Z.testbit v (n - lo) else Z.testbit x n.
Proof.
  intros Hlo Hhi Hn. unfold set_range. cbv zeta.
  rewrite Z.lor_spec, Z.ldiff_spec, !Z.shiftl_spec, Z.land_spec by lia.
  rewrite !Z.testbit_ones by lia.
  destruct (Z.leb_spec lo n), (Z.leb_spec n hi); simpl.
  - bit_cases.
  - bit_cases.
  - rewrite (Z.testbit_neg_r v) by lia. bit_cases.
  - rewrite (Z.testbit_neg_r v) by lia. bit_cases.
Qed.

Lemma testbit_bits32 x n :
  0 <= n → Z.testbit (Fixed.bits32 x) n = Z.testbit x n && (n <? 32).
Proof.
  intros Hn. unfold Fixed.bits32.
  now rewrite Z.land_spec, Z.testbit_ones_nonneg by lia.
Qed.

Lemma testbit_pack_data_from p re im n :
  0 <= n →
  Z.testbit (pack_data_from p re im) n =
  if n <? 32 then Z.testbit im n
  else if n <? 64 then Z.testbit re (n - 32)
  else Z.testbit p n.
Proof.
  intros Hn. unfold pack_data_from. cbv zeta.
  rewrite !testbit_set_range by lia.
  destruct (Z.ltb_spec n 32), (Z.ltb_spec n 64); try lia.
  - replace ((0 <=? n) && (n <=? 31)) with true by lia.
    rewrite testbit_bits32 by lia. replace (n - 0) with n by lia. bit_cases.
  - replace ((0 <=? n) && (n <=? 31)) with false by lia.
    replace ((32 <=? n) && (n <=? 63)) with true by lia.
    rewrite testbit_bits32 by lia. bit_cases.
  - replace ((0 <=? n) && (n <=? 31)) with false by lia.
    replace ((32 <=? n) && (n <=? 63)) with false by lia.
    reflexivity.
Qed.

(** The upper half of a packed word is the raw pattern of the real part,
    the lower half that of the imaginary part. *)
Lemma pack_data_real_bits p re im :
  get_range (pack_data_from p re im) 63 32 = Fixed.bits32 re.
Proof.
  apply Z.bits_inj'. intros n Hn.
  rewrite testbit_get_range, testbit_pack_data_from, testbit_bits32 by lia.
  replace (63 - 32 + 1) with 32 by lia.
  destruct (Z.ltb_spec n 32).
  - replace (n + 32 <? 32) with false by lia.
    replace (n + 32 <? 64) with true by lia.
    replace (n + 32 - 32) with n by lia. now rewrite andb_true_r.
  - now rewrite !andb_false_r.
Qed.

Lemma pack_data_imag_bits p re im :
  get_range (pack_data_from p re im) 31 0 = Fixed.bits32 im.
Proof.
  apply Z.bits_inj'. intros n Hn.
  rewrite testbit_get_range, testbit_pack_data_from, testbit_bits32 by lia.
  replace (31 - 0 + 1) with 32 by lia. replace (n + 0) with n by lia.
  destruct (Z.ltb_spec n 32).
  - now rewrite !andb_true_r.
  - now rewrite !andb_false_r.
Qed.

(** A packed word does not depend on what the local [packed] held before
    the two assignments, as long as that was a 64-bit value. *)
Lemma pack_data_from_any p re im :
  0 <= p < 2 ^ 64 → pack_data_from p re im = pack_data re im.
Proof.
  intros Hp. apply Z.bits_inj'. intros n Hn. unfold pack_data.
  rewrite !testbit_pack_data_from by lia.
  destruct (Z.ltb_spec n 32); [reflexivity|].
  destruct (Z.ltb_spec n 64); [reflexivity|].
  rewrite Z.bits_0. apply Z.bits_above_log2; [lia|].
  destruct (Z.eq_dec p 0) as [->|Hne]; [simpl; lia|].
  apply Z.log2_lt_pow2; [lia|].
  apply Z.lt_le_trans with (2 ^ 64); [lia|]. apply Z.pow_le_mono_r; lia.
Qed.

Lemma pack_data_range re im : 0 <= pack_data re im < 2 ^ 64.
Proof.
  assert (pack_data re im = Z.land (pack_data re im) (Z.ones 64)) as ->.
  { apply Z.bits_inj'. intros n Hn.
    rewrite Z.land_spec, Z.testbit_ones_nonneg by lia. unfold pack_data.
    rewrite !testbit_pack_data_from by lia.
    destruct (Z.ltb_spec n 32), (Z.ltb_spec n 64);
      rewrite ?andb_true_r, ?Z.bits_0; try reflexivity; lia. }
  rewrite Z.land_ones by lia. apply Z.mod_pos_bound. lia.
Qed.

(** Unpacking a packed pair gives the two values, wrapped to 32 bits. *)
Lemma unpack_pack_wrap re im :
  unpack_data (pack_data re im) = (Fixed.wrap32 re, Fixed.wrap32 im).
Proof.
  unfold unpack_data, pack_data. cbv zeta.
  now rewrite pack_data_real_bits, pack_data_imag_bits, !wrap32_bits32.
Qed.

(** C10. For every pair of Q16.16 values [(re, im)], unpacking the 64-bit
    word that [pack_data] builds from them gives back exactly [(re, im)]. *)
Theorem unpack_pack_data (re im : fixed_t) :
  Fixed.in_range re → Fixed.in_range im →
  unpack_data (pack_data re im) = (re, im).
Proof.
  intros Hre Him. unfold unpack_data, pack_data. cbv zeta.
  rewrite pack_data_real_bits, pack_data_imag_bits, !wrap32_bits32.
  now rewrite !wrap32_id.
Qed.

Lemma unpack_pack_data_witness :
  unpack_data (pack_data (-65536) 98304) = (-65536, 98304).
Proof. apply unpack_pack_data; unfold Fixed.in_range; lia. Defined.

(** ** Bit reversal of an index *)

Lemma testbit_assign_bit x m b n :
  0 <= m →
  Z.testbit (assign_bit x m b) n = if m =? n then b else Z.testbit x n.
Proof.
  intros Hm. unfold assign_bit. destruct b.
  - rewrite Z.setbit_eqb by lia. now destruct (m =? n).
  - rewrite Z.clearbit_eqb. destruct (m =? n); simpl.
    + apply andb_false_r.
    + apply andb_true_r.
Qed.

Lemma testbit_to_ap_uint w x n :
  0 <= w → 0 <= n →
  Z.testbit (to_ap_uint w x) n = Z.testbit x n && (n <? w).
Proof.
  intros Hw Hn. unfold to_ap_uint.
  now rewrite Z.land_spec, Z.testbit_ones_nonneg by lia.
Qed.

(** Bit [k] of the argument becomes bit [7 - k] of the result; the result
    has no other bits. *)
Lemma testbit_bit_reverse_idx idx n :
  0 <= n →
  Z.testbit (bit_reverse_idx idx) n = (n <? 8) && Z.testbit idx (7 - n).
Proof.
  intros Hn. unfold bit_reverse_idx. cbv zeta.
  change (seqZ 0 LOG2_FFT_SIZE) with [0; 1; 2; 3; 4; 5; 6; 7].
  unfold LOG2_FFT_SIZE. cbn [foldl].
  rewrite !testbit_assign_bit by lia.
  repeat match goal with
         | |- context [?a =? n] =>
             destruct (Z.eqb_spec a n) as [<-|?];
             [ rewrite testbit_to_ap_uint by lia; simpl;
               now rewrite andb_true_r | ]
         end.
  rewrite Z.bits_0. destruct (Z.ltb_spec n 8); [lia|reflexivity].
Qed.

Lemma bit_reverse_idx_range idx : 0 <= bit_reverse_idx idx < 256.
Proof.
  assert (bit_reverse_idx idx = (bit_reverse_idx idx) mod 2 ^ 8) as ->.
  { apply Z.bits_inj'. intros n Hn.
    rewrite Z.testbit_mod_pow2, testbit_bit_reverse_idx by lia.
    destruct (n <? 8); reflexivity. }
  apply Z.mod_pos_bound. lia.
Qed.

Lemma bit_reverse_idx_twice i :
  0 <= i < 256 → bit_reverse_idx (bit_reverse_idx i) = i.
Proof.
  intros Hi. apply Z.bits_inj'. intros n Hn.
  rewrite testbit_bit_reverse_idx by lia.
  destruct (Z.ltb_spec n 8) as [Hlt|Hge]; simpl.
  - rewrite testbit_bit_reverse_idx by lia.
    replace (7 - n <? 8) with true by lia.
    now replace (7 - (7 - n)) with n by lia.
  - symmetry. apply Z.bits_above_log2; [lia|].
    destruct (Z.eq_dec i 0) as [->|Hne]; [simpl; lia|].
    apply Z.lt_le_trans with 8; [|lia].
    apply Z.log2_lt_pow2; lia.
Qed.

Lemma bit_reverse_idx_inj i j :
  0 <= i < 256 → 0 <= j < 256 →
  bit_reverse_idx i = bit_reverse_idx j → i = j.
Proof.
  intros Hi Hj H.
  rewrite <- (bit_reverse_idx_twice i), <- (bit_reverse_idx_twice j)
    by assumption.
  now rewrite H.
Qed.

(** ** Loops and arrays *)

(** Invariant rule for [for_loop]: a body that re-establishes the
    invariant at every counter value makes the loop return. *)
Lemma for_loop_inv {St : Type} (P : Z → St → Prop) n lo
    (body : Z → St → option St) s :
  P lo s →
  (∀ i s, lo <= i < lo + Z.of_nat n → P i s →
          ∃ s', body i s = Some s' ∧ P (i + 1) s') →
  ∃ s', for_loop n lo body s = Some s' ∧ P (lo + Z.of_nat n) s'.
Proof.
  revert lo s. induction n as [|n IH]; intros lo s H0 Hstep.
  - exists s. split; [reflexivity|]. now replace (lo + Z.of_nat 0) with lo by lia.
  - destruct (Hstep lo s) as (s1 & Hb & H1); [lia|assumption|].
    destruct (IH (lo + 1) s1) as (s2 & Hl & H2); [assumption| |].
    + intros i s' Hi. apply Hstep. lia.
    + exists s2. split.
      * simpl. rewrite Hb. exact Hl.
      * now replace (lo + Z.of_nat (S n)) with (lo + 1 + Z.of_nat n) by lia.
Qed.

(** Simulation rule: two loops whose bodies preserve a relation between
    their states. *)
Lemma for_loop_sim {A B : Type} (R : A → B → Prop) n lo
    (body1 : Z → A → option A) (body2 : Z → B → option B) a b a' :
  R a b →
  (∀ i a b a', R a b → body1 i a = Some a' →
               ∃ b', body2 i b = Some b' ∧ R a' b') →
  for_loop n lo body1 a = Some a' →
  ∃ b', for_loop n lo body2 b = Some b' ∧ R a' b'.
Proof.
  intros HR Hstep. revert lo a b HR. induction n as [|n IH]; intros lo a b HR H.
  - simpl in H. injection H as <-. now exists b.
  - simpl in H. destruct (body1 lo a) as [a1|] eqn:E1; [|discriminate].
    simpl in H. destruct (Hstep lo a b a1 HR E1) as (b1 & E2 & HR1).
    destruct (IH _ _ _ HR1 H) as (b' & E & HR').
    exists b'. split; [|assumption]. simpl. now rewrite E2.
Qed.

Lemma load_lookup (buf : list fixed_t) i :
  0 <= i → load buf i = buf !! Z.to_nat i.
Proof. intros Hi. unfold load. now replace (0 <=? i) with true by lia. Qed.

Lemma load_total (buf : list fixed_t) i :
  0 <= i < Z.of_nat (length buf) → load buf i = Some (buf !!! Z.to_nat i).
Proof.
  intros Hi. rewrite load_lookup by lia.
  apply list_lookup_lookup_total_lt. lia.
Qed.

Lemma store_total (buf : list fixed_t) i v :
  0 <= i < Z.of_nat (length buf) →
  store buf i v = Some (<[Z.to_nat i := v]> buf).
Proof.
  intros Hi. unfold store.
  now replace ((0 <=? i) && (i <? Z.of_nat (length buf))) with true by lia.
Qed.

Lemma load_fmap (f : Z → Z) (buf : list fixed_t) i :
  load (f <$> buf) i = f <$> load buf i.
Proof. unfold load. destruct (0 <=? i); [apply list_lookup_fmap|reflexivity]. Qed.

Lemma store_fmap (f : Z → Z) (buf : list fixed_t) i v :
  store (f <$> buf) i (f v) = fmap (M:=list) f <$> store buf i v.
Proof.
  unfold store. rewrite length_fmap.
  destruct ((0 <=? i) && (i <? Z.of_nat (length buf))); simpl; [|reflexivity].
  now rewrite list_fmap_insert.
Qed.

Lemma take_S_insert {A} (l : list A) (i : nat) v :
  (i < length l)%nat → take (S i) (<[i := v]> l) = take i l ++ [v].
Proof.
  intros Hi. rewrite (take_S_r _ _ v).
  - now rewrite take_insert_ge by lia.
  - now apply list_lookup_insert_eq.
Qed.

(** ** Butterfly indices *)

Lemma stage_half_pow2 stage : 0 <= stage → stage_half stage = 2 ^ stage.
Proof. intros H. unfold stage_half. now rewrite Z.shiftl_1_l. Qed.

Lemma bfly_j_mod stage k : 0 <= stage → bfly_j stage k = k mod 2 ^ stage.
Proof.
  intros H. unfold bfly_j. rewrite stage_half_pow2 by assumption.
  replace (2 ^ stage - 1) with (Z.ones stage) by (rewrite Z.ones_equiv; lia).
  now apply Z.land_ones.
Qed.

Lemma bfly_group_div stage k :
  0 <= stage → bfly_group stage k = k / 2 ^ stage * (2 * 2 ^ stage).
Proof.
  intros H. unfold bfly_group.
  rewrite Z.shiftl_mul_pow2, Z.shiftr_div_pow2 by lia.
  rewrite Z.pow_add_r by lia. change (2 ^ 1) with 2. lia.
Qed.

Lemma stage_tw_stride_div stage :
  0 <= stage → stage_tw_stride stage = 128 / 2 ^ stage.
Proof.
  intros H. unfold stage_tw_stride, FFT_SIZE.
  rewrite Z.shiftr_div_pow2, Z.pow_add_r by lia. change (2 ^ 1) with 2.
  assert (0 < 2 ^ stage) by (apply Z.pow_pos_nonneg; lia).
  rewrite (Z.mul_comm (2 ^ stage) 2), <- Z.div_div by lia. reflexivity.
Qed.

(** C6. For every stage in [[0, 8)] and every [k] in [[0, 128)], the bit
    manipulations of the code ([k & (half - 1)], [(k >> stage) << (stage + 1)],
    [256 >> (stage + 1)], with [half = 1 << stage]) compute the values of
    the arithmetic formulas [k mod half], [(k / half) * 2 * half] and
    [128 / half] with [half = 2 ^ stage]. *)
Theorem index_formulas_agree (stage k : Z) :
  0 <= stage < 8 → 0 <= k < 128 →
  stage_half stage = Spec.half stage ∧
  bfly_j stage k = Spec.j stage k ∧
  bfly_group stage k = Spec.group stage k ∧
  stage_tw_stride stage = Spec.tw_stride stage.
Proof.
  intros Hs Hk. unfold Spec.j, Spec.group, Spec.tw_stride, Spec.half.
  rewrite stage_half_pow2, bfly_j_mod, bfly_group_div, stage_tw_stride_div
    by lia.
  repeat split; reflexivity.
Qed.

Lemma index_formulas_agree_witness :
  stage_half 3 = Spec.half 3 ∧
  bfly_j 3 77 = Spec.j 3 77 ∧
  bfly_group 3 77 = Spec.group 3 77 ∧
  stage_tw_stride 3 = Spec.tw_stride 3.
Proof. apply index_formulas_agree; lia. Defined.

Lemma butterfly_idx_spec stage k :
  0 <= stage < 8 → 0 <= k < 128 →
  butterfly_idx stage k =
  {| idx_top := Spec.top stage k;
     idx_bot := Spec.bot stage k;
     tw_idx := Spec.tw_idx stage k |}.
Proof.
  intros Hs Hk.
  unfold butterfly_idx, Spec.top, Spec.bot, Spec.tw_idx. cbv zeta.
  unfold Spec.j, Spec.group, Spec.tw_stride, Spec.half.
  now rewrite stage_half_pow2, bfly_j_mod, bfly_group_div, stage_tw_stride_div
    by lia.
Qed.

Lemma stage_cases stage :
  0 <= stage < 8 →
  stage = 0 ∨ stage = 1 ∨ stage = 2 ∨ stage = 3 ∨
  stage = 4 ∨ stage = 5 ∨ stage = 6 ∨ stage = 7.
Proof. lia. Qed.

Lemma spec_idx_bounds stage k :
  0 <= stage < 8 → 0 <= k < 128 →
  0 <= Spec.top stage k < Spec.bot stage k ∧
  Spec.bot stage k < 256 ∧
  0 <= Spec.tw_idx stage k < 128.
Proof.
  intros Hs Hk.
  unfold Spec.top, Spec.bot, Spec.tw_idx, Spec.group, Spec.j, Spec.tw_stride,
    Spec.half.
  destruct (stage_cases stage Hs) as [->|[->|[->|[->|[->|[->|[->| ->]]]]]]];
    match goal with
    | |- context [2 ^ ?s] => let v := eval vm_compute in (2 ^ s) in
                             change (2 ^ s) with v
    end;
    match goal with
    | |- context [128 / ?h] => let v := eval vm_compute in (128 / h) in
                               change (128 / h) with v
    end;
    Z.div_mod_to_equations; lia.
Qed.

Lemma butterfly_idx_bounds stage k :
  0 <= stage < 8 → 0 <= k < 128 →
  0 <= idx_top (butterfly_idx stage k) < 256 ∧
  0 <= idx_bot (butterfly_idx stage k) < 256 ∧
  0 <= tw_idx (butterfly_idx stage k) < 128 ∧
  idx_top (butterfly_idx stage k) < idx_bot (butterfly_idx stage k).
Proof.
  intros Hs Hk. rewrite butterfly_idx_spec by assumption. simpl.
  pose proof (spec_idx_bounds stage k Hs Hk). lia.
Qed.

(** ** The document's arithmetic against the code's *)

Section SpecArith.
Import Fixed.

Lemma spec_add_eq a b : Spec.add a b = add a b.
Proof.
  unfold Spec.add, Spec.add_bits, add. apply wrap32_eq_mod.
  rewrite Z.mod_mod, !bits32_mod by lia. now rewrite <- Zplus_mod.
Qed.

Lemma spec_sub_eq a b : Spec.sub a b = sub a b.
Proof.
  unfold Spec.sub, Spec.sub_bits, sub. apply wrap32_eq_mod.
  rewrite Z.mod_mod, !bits32_mod by lia. now rewrite <- Zminus_mod.
Qed.

(** Sign extension of the pattern of [a] is the 64-bit pattern of [a]. *)
Lemma sext64_bits32 a : in_range a → Spec.sext64 (bits32 a) = a mod 2 ^ 64.
Proof.
  unfold in_range. intros Ha. unfold Spec.sext64.
  pose proof (bits32_range a) as Hr.
  rewrite testbit_31 by assumption.
  assert (Z.land (bits32 a) (Z.shiftl (Z.ones 32) 32) = 0) as Hdisj.
  { apply Z.bits_inj'. intros n Hn.
    rewrite Z.land_spec, testbit_bits32, Z.bits_0 by lia.
    destruct (Z.ltb_spec n 32); [|now rewrite andb_false_r].
    rewrite Z.shiftl_spec_low by lia. apply andb_false_r. }
  rewrite <- Z.lxor_lor, <- Z.add_nocarry_lxor by assumption.
  rewrite bits32_mod in *. change (Z.shiftl (Z.ones 32) 32) with (2 ^ 64 - 2 ^ 32).
  destruct (Z.leb_spec (2 ^ 31) (a mod 2 ^ 32)); Z.div_mod_to_equations; lia.
Qed.

Lemma product_range a b :
  in_range a → in_range b → - 2 ^ 62 <= a * b <= 2 ^ 62.
Proof. unfold in_range. intros Ha Hb. nia. Qed.

(** The document's multiplication on patterns is the code's
    [(fixed_t)(a * b)]. *)
Lemma spec_mul_eq a b : in_range a → in_range b → Spec.mul a b = mul a b.
Proof.
  intros Ha Hb. unfold Spec.mul, Spec.mul_bits, mul.
  rewrite !sext64_bits32 by assumption.
  unfold Spec.mul64. rewrite Z.land_ones, <- Zmult_mod by lia.
  pose proof (product_range a b Ha Hb) as Hp.
  assert (0 <= (a * b) mod 2 ^ 64 < 2 ^ 64) as Hm
      by (apply Z.mod_pos_bound; lia).
  unfold Spec.asr64. cbv zeta.
  rewrite (testbit_top 63) by (simpl; lia).
  assert ((if 2 ^ 63 <=? (a * b) mod 2 ^ 64
           then (a * b) mod 2 ^ 64 - 2 ^ 64 else (a * b) mod 2 ^ 64) = a * b)
    as ->.
  { destruct (Z.leb_spec (2 ^ 63) ((a * b) mod 2 ^ 64));
      Z.div_mod_to_equations; lia. }
  unfold Spec.low32. rewrite !Z.land_ones by lia.
  rewrite Z.mod_mod_divide by (exists (2 ^ 32); reflexivity).
  rewrite <- bits32_mod. apply wrap32_bits32.
Qed.

End SpecArith.

(** ** The twiddle tables *)

Lemma Forall_in_range l : forallb Fixed.in_rangeb l = true → Forall Fixed.in_range l.
Proof.
  induction l as [|x l IH]; simpl; intros H; constructor.
  - apply andb_prop in H as [H _]. unfold Fixed.in_rangeb in H.
    unfold Fixed.in_range. lia.
  - apply IH. now apply andb_prop in H as [_ H].
Qed.

Lemma TW_REAL_length : length TW_REAL = 128%nat.
Proof. reflexivity. Qed.

Lemma TW_IMAG_length : length TW_IMAG = 128%nat.
Proof. reflexivity. Qed.

Lemma TW_REAL_in_range : Forall Fixed.in_range TW_REAL.
Proof. apply Forall_in_range. vm_compute. reflexivity. Qed.

Lemma TW_IMAG_in_range : Forall Fixed.in_range TW_IMAG.
Proof. apply Forall_in_range. vm_compute. reflexivity. Qed.

(** Every literal of the two tables converts to the same [fixed_t] as the
    [double] nearest to it. *)
Lemma literals_robust :
  forallb literal_robust (TW_REAL_literals ++ TW_IMAG_literals) = true.
Proof. vm_compute. reflexivity. Qed.

(** The tables are the conversions of the literals of the source. *)
Lemma TW_REAL_literal k :
  TW_REAL !! k = Fixed.of_literal <$> TW_REAL_literals !! k.
Proof. rewrite <- list_lookup_fmap. reflexivity. Qed.

Lemma TW_IMAG_literal k :
  TW_IMAG !! k = Fixed.of_literal <$> TW_IMAG_literals !! k.
Proof. rewrite <- list_lookup_fmap. reflexivity. Qed.

(** ** The butterfly *)

Lemma in_range_lookup_total (l : list Z) n :
  Forall Fixed.in_range l → (n < length l)%nat → Fixed.in_range (l !!! n).
Proof. intros Hl Hn. now apply Forall_lookup_total. Qed.

(** On buffers of 256 elements every butterfly of every stage returns,
    and its result is the two insertions into each buffer. *)
Lemma butterfly_eq stage k (wr wi : list Z) :
  0 <= stage < 8 → 0 <= k < 128 →
  length wr = 256%nat → length wi = 256%nat →
  butterfly stage k (wr, wi) =
  let ix := butterfly_idx stage k in
  let t := Z.to_nat (idx_top ix) in
  let b := Z.to_nat (idx_bot ix) in
  let tw_r := TW_REAL !!! Z.to_nat (tw_idx ix) in
  let tw_i := TW_IMAG !!! Z.to_nat (tw_idx ix) in
  let ar := wr !!! t in
  let ai := wi !!! t in
  let br := wr !!! b in
  let bi := wi !!! b in
  let tr := Fixed.sub (Fixed.mul br tw_r) (Fixed.mul bi tw_i) in
  let ti := Fixed.add (Fixed.mul br tw_i) (Fixed.mul bi tw_r) in
  Some (<[b := Fixed.sub ar tr]> (<[t := Fixed.add ar tr]> wr),
        <[b := Fixed.sub ai ti]> (<[t := Fixed.add ai ti]> wi)).
Proof.
  intros Hs Hk Hlr Hli.
  destruct (butterfly_idx_bounds stage k Hs Hk) as (Ht & Hb & Htw & _).
  unfold butterfly. cbv zeta.
  generalize dependent (butterfly_idx stage k). intros ix Ht Hb Htw.
  assert (Z.of_nat (length TW_REAL) = 128) as HlR by reflexivity.
  assert (Z.of_nat (length TW_IMAG) = 128) as HlI by reflexivity.
  rewrite !load_total by lia. simpl.
  rewrite (store_total wr), (store_total wi) by lia. simpl.
  rewrite !store_total by (rewrite length_insert; lia).
  reflexivity.
Qed.

Lemma butterfly_total stage k (wr wi : list Z) :
  0 <= stage < 8 → 0 <= k < 128 →
  length wr = 256%nat → length wi = 256%nat →
  ∃ wr' wi', butterfly stage k (wr, wi) = Some (wr', wi') ∧
             length wr' = 256%nat ∧ length wi' = 256%nat.
Proof.
  intros Hs Hk Hlr Hli. rewrite butterfly_eq by assumption. cbv zeta.
  eexists _, _. split; [reflexivity|]. now rewrite !length_insert.
Qed.

Lemma butterfly_in_range stage k (wr wi wr' wi' : list Z) :
  0 <= stage < 8 → 0 <= k < 128 →
  length wr = 256%nat → length wi = 256%nat →
  Forall Fixed.in_range wr → Forall Fixed.in_range wi →
  butterfly stage k (wr, wi) = Some (wr', wi') →
  Forall Fixed.in_range wr' ∧ Forall Fixed.in_range wi'.
Proof.
  intros Hs Hk Hlr Hli Hr Hi. rewrite butterfly_eq by assumption. cbv zeta.
  intros [= <- <-].
  split; repeat apply Forall_insert; auto using add_range, sub_range.
Qed.

(** C3. For every stage in [[0, 8)] and [k] in [[0, 128)], on buffers of
    256 Q16.16 values, the butterfly of the code is the butterfly of the
    design document: operands loaded at [top] and [bot], [tr] and [ti]
    built from four separate multiplications (sign extension to 64 bits,
    64-bit product, arithmetic shift right by 16, low 32 bits kept, no
    rounding and no saturation) and written back as [a + t] at [top] and
    [a - t] at [bot] with 32-bit wrap-around. *)
Theorem butterfly_refines_spec (stage k : Z) (wr wi : list Z) :
  0 <= stage < 8 → 0 <= k < 128 →
  length wr = 256%nat → length wi = 256%nat →
  Forall Fixed.in_range wr → Forall Fixed.in_range wi →
  butterfly stage k (wr, wi) = Some (Spec.butterfly stage k (wr, wi)).
Proof.
  intros Hs Hk Hlr Hli Hr Hi. rewrite butterfly_eq by assumption.
  pose proof (spec_idx_bounds stage k Hs Hk) as (Ht & Hb & Htw).
  rewrite butterfly_idx_spec by assumption. cbn [idx_top idx_bot tw_idx].
  unfold Spec.butterfly. cbv zeta.
  rewrite !spec_add_eq, !spec_sub_eq.
  assert (Fixed.in_range (wr !!! Z.to_nat (Spec.bot stage k)))
    by (apply in_range_lookup_total; [assumption|lia]).
  assert (Fixed.in_range (wi !!! Z.to_nat (Spec.bot stage k)))
    by (apply in_range_lookup_total; [assumption|lia]).
  assert (Fixed.in_range (TW_REAL !!! Z.to_nat (Spec.tw_idx stage k)))
    by (apply in_range_lookup_total;
        [apply TW_REAL_in_range|rewrite TW_REAL_length; lia]).
  assert (Fixed.in_range (TW_IMAG !!! Z.to_nat (Spec.tw_idx stage k)))
    by (apply in_range_lookup_total;
        [apply TW_IMAG_in_range|rewrite TW_IMAG_length; lia]).
  rewrite !spec_mul_eq by assumption.
  reflexivity.
Qed.

Lemma butterfly_refines_spec_witness :
  butterfly 1 5 (seqZ 0 256, replicate 256 65536) =
  Some (Spec.butterfly 1 5 (seqZ 0 256, replicate 256 65536)).
Proof.
  apply butterfly_refines_spec;
    [lia | lia | reflexivity | reflexivity
    | apply Forall_in_range; reflexivity
    | apply Forall_in_range; reflexivity].
Defined.

(** ** The butterfly core *)

(** [COPY_IN] and [COPY_OUT] return the source buffers. *)
Lemma copy_loop (src_real src_imag dst_real dst_imag : list Z) :
  length src_real = 256%nat → length src_imag = 256%nat →
  length dst_real = 256%nat → length dst_imag = 256%nat →
  for_loop (Z.to_nat FFT_SIZE) 0 (copy_elem src_real src_imag)
           (dst_real, dst_imag) = Some (src_real, src_imag).
Proof.
  intros Hsr Hsi Hdr Hdi.
  destruct (for_loop_inv
    (λ i '(dr, di),
       length dr = 256%nat ∧ length di = 256%nat ∧
       take (Z.to_nat i) dr = take (Z.to_nat i) src_real ∧
       take (Z.to_nat i) di = take (Z.to_nat i) src_imag)
    (Z.to_nat FFT_SIZE) 0 (copy_elem src_real src_imag) (dst_real, dst_imag))
    as ([dr di] & Hrun & Hlr & Hli & Htr & Hti).
  - repeat split; assumption.
  - intros i [dr di] Hi (Hlr & Hli & Htr & Hti).
    change (Z.of_nat (Z.to_nat FFT_SIZE)) with 256 in Hi.
    unfold copy_elem.
    rewrite (load_total src_real), (load_total src_imag) by lia. simpl.
    rewrite (store_total dr) by lia. simpl. rewrite (store_total di) by lia.
    simpl. eexists. split; [reflexivity|]. cbv beta iota.
    rewrite !length_insert. repeat split; try assumption.
    + replace (Z.to_nat (i + 1)) with (S (Z.to_nat i)) by lia.
      rewrite take_S_insert by lia. rewrite Htr. symmetry. apply take_S_r.
      apply list_lookup_lookup_total_lt. lia.
    + replace (Z.to_nat (i + 1)) with (S (Z.to_nat i)) by lia.
      rewrite take_S_insert by lia. rewrite Hti. symmetry. apply take_S_r.
      apply list_lookup_lookup_total_lt. lia.
  - rewrite Hrun. change (Z.to_nat (0 + Z.of_nat (Z.to_nat FFT_SIZE))) with 256%nat in *.
    rewrite !take_ge in Htr, Hti by lia. now subst.
Qed.

Lemma butterfly_loop_total stage (wr wi : list Z) :
  0 <= stage < 8 →
  length wr = 256%nat → length wi = 256%nat →
  ∃ wr' wi',
    for_loop (Z.to_nat (FFT_SIZE / 2)) 0 (butterfly stage) (wr, wi)
    = Some (wr', wi') ∧
    length wr' = 256%nat ∧ length wi' = 256%nat.
Proof.
  intros Hs Hlr Hli.
  destruct (for_loop_inv
    (λ _ '(wr, wi), length wr = 256%nat ∧ length wi = 256%nat)
    (Z.to_nat (FFT_SIZE / 2)) 0 (butterfly stage) (wr, wi))
    as ([wr' wi'] & Hrun & Hl).
  - split; assumption.
  - intros k [wr0 wi0] Hk [H1 H2].
    change (Z.of_nat (Z.to_nat (FFT_SIZE / 2))) with 128 in Hk.
    destruct (butterfly_total stage k wr0 wi0) as (wr1 & wi1 & E & Hl);
      [lia|lia|assumption|assumption|].
    exists (wr1, wi1). split; assumption.
  - exists wr', wi'. split; assumption.
Qed.

Lemma stage_loop_total (wr wi : list Z) :
  length wr = 256%nat → length wi = 256%nat →
  ∃ wr' wi', stage_loop (wr, wi) = Some (wr', wi') ∧
             length wr' = 256%nat ∧ length wi' = 256%nat.
Proof.
  intros Hlr Hli. unfold stage_loop.
  destruct (for_loop_inv
    (λ _ '(wr, wi), length wr = 256%nat ∧ length wi = 256%nat)
    (Z.to_nat LOG2_FFT_SIZE) 0
    (λ stage w, for_loop (Z.to_nat (FFT_SIZE / 2)) 0 (butterfly stage) w)
    (wr, wi))
    as ([wr' wi'] & Hrun & Hl).
  - split; assumption.
  - intros stage [wr0 wi0] Hs [H1 H2].
    change (Z.of_nat (Z.to_nat LOG2_FFT_SIZE)) with 8 in Hs.
    destruct (butterfly_loop_total stage wr0 wi0) as (wr1 & wi1 & E & Hl);
      [lia|assumption|assumption|].
    exists (wr1, wi1). split; assumption.
  - exists wr', wi'. split; assumption.
Qed.

(** The core is the stage loop: the two copy loops move the buffers
    unchanged. *)
Lemma fft_stages_eq (in_real in_imag out_real out_imag : list Z) :
  length in_real = 256%nat → length in_imag = 256%nat →
  length out_real = 256%nat → length out_imag = 256%nat →
  fft_stages in_real in_imag out_real out_imag = stage_loop (in_real, in_imag).
Proof.
  intros Hir Hii Hor Hoi. unfold fft_stages.
  rewrite copy_loop by (assumption || reflexivity). simpl.
  destruct (stage_loop_total in_real in_imag Hir Hii)
    as (wr & wi & -> & Hlr & Hli).
  simpl. now apply copy_loop.
Qed.

(** C7. For every stage in [[0, 8)] and [k] in [[0, 128)] the indices of
    the butterfly satisfy [0 <= idx_top < 256], [0 <= idx_bot < 256] and
    [0 <= tw_idx < 128]; no access of the butterfly is out of range, and
    the core returns whatever the 256-element buffers contain. *)
Theorem butterfly_core_in_bounds (stage k : Z)
    (wr wi out_real out_imag : list Z) :
  0 <= stage < 8 → 0 <= k < 128 →
  length wr = 256%nat → length wi = 256%nat →
  length out_real = 256%nat → length out_imag = 256%nat →
  0 <= idx_top (butterfly_idx stage k) < 256 ∧
  0 <= idx_bot (butterfly_idx stage k) < 256 ∧
  0 <= tw_idx (butterfly_idx stage k) < 128 ∧
  is_Some (butterfly stage k (wr, wi)) ∧
  is_Some (fft_stages wr wi out_real out_imag).
Proof.
  intros Hs Hk Hlr Hli Hor Hoi.
  destruct (butterfly_idx_bounds stage k Hs Hk) as (Ht & Hb & Htw & _).
  repeat split; try lia.
  - destruct (butterfly_total stage k wr wi) as (wr' & wi' & -> & _); auto.
  - rewrite fft_stages_eq by assumption.
    destruct (stage_loop_total wr wi) as (wr' & wi' & -> & _); auto.
Qed.

Lemma butterfly_core_in_bounds_witness :
  0 <= idx_top (butterfly_idx 7 127) < 256 ∧
  0 <= idx_bot (butterfly_idx 7 127) < 256 ∧
  0 <= tw_idx (butterfly_idx 7 127) < 128 ∧
  is_Some (butterfly 7 127 (seqZ 0 256, fresh_buf)) ∧
  is_Some (fft_stages (seqZ 0 256) fresh_buf fresh_buf fresh_buf).
Proof.
  apply butterfly_core_in_bounds; (lia || reflexivity).
Defined.

(** ** The frame reader *)

(** On a stream that holds at least 256 words the reader returns: it
    consumes 256 words and stores the two halves of word [n] at index [n].
    The [last], [keep] and [strb] fields of the words are not looked at. *)
Lemma read_input_eq (frame rest : stream) (real_buf imag_buf : list Z) :
  length frame = 256%nat →
  length real_buf = 256%nat → length imag_buf = 256%nat →
  read_input (frame ++ rest) real_buf imag_buf =
  Some (rest, word_real <$> frame, word_imag <$> frame).
Proof.
  intros Hf Hr Hi. unfold read_input.
  destruct (for_loop_inv
    (λ i '(s, rb, ib),
       s = drop (Z.to_nat i) (frame ++ rest) ∧
       length rb = 256%nat ∧ length ib = 256%nat ∧
       take (Z.to_nat i) rb = take (Z.to_nat i) (word_real <$> frame) ∧
       take (Z.to_nat i) ib = take (Z.to_nat i) (word_imag <$> frame))
    (Z.to_nat FFT_SIZE) 0 read_word (frame ++ rest, real_buf, imag_buf))
    as ([[s rb] ib] & Hrun & Hs & Hlr & Hli & Htr & Hti).
  - repeat split; assumption.
  - intros i [[s rb] ib] Hn (Hs & Hlr & Hli & Htr & Hti).
    change (Z.of_nat (Z.to_nat FFT_SIZE)) with 256 in Hn.
    destruct (lookup_lt_is_Some_2 frame (Z.to_nat i)) as [val Hval]; [lia|].
    rewrite (drop_S _ val) in Hs
      by (rewrite lookup_app_l by lia; exact Hval).
    subst s. unfold read_word. cbn [stream_read mbind option_bind].
    destruct (unpack_data (data val)) as [re im] eqn:Eu.
    rewrite (store_total rb) by lia. cbn [mbind option_bind].
    rewrite (store_total ib) by lia. cbn [mbind option_bind].
    eexists. split; [reflexivity|]. cbv beta iota.
    rewrite !length_insert.
    replace (Z.to_nat (i + 1)) with (S (Z.to_nat i)) by lia.
    repeat split; try assumption.
    + rewrite take_S_insert by lia. rewrite Htr. symmetry. apply take_S_r.
      rewrite list_lookup_fmap, Hval. cbn [fmap option_fmap option_map].
      unfold word_real. now rewrite Eu.
    + rewrite take_S_insert by lia. rewrite Hti. symmetry. apply take_S_r.
      rewrite list_lookup_fmap, Hval. cbn [fmap option_fmap option_map].
      unfold word_imag. now rewrite Eu.
  - refine (eq_trans Hrun _).
    change (Z.to_nat (0 + Z.of_nat (Z.to_nat FFT_SIZE))) with 256%nat in *.
    rewrite drop_app_length' in Hs by (symmetry; assumption).
    rewrite !take_ge in Htr, Hti by (rewrite ?length_fmap; lia).
    now subst.
Qed.


(** ** The bit-reversal permuter *)

Lemma bit_reverse_spec (in_real in_imag out_real out_imag : list Z) :
  length in_real = 256%nat → length in_imag = 256%nat →
  length out_real = 256%nat → length out_imag = 256%nat →
  ∃ rev_real rev_imag,
    bit_reverse in_real in_imag out_real out_imag = Some (rev_real, rev_imag) ∧
    length rev_real = 256%nat ∧ length rev_imag = 256%nat ∧
    ∀ i, 0 <= i < 256 →
         rev_real !! Z.to_nat (bit_reverse_idx i) = in_real !! Z.to_nat i ∧
         rev_imag !! Z.to_nat (bit_reverse_idx i) = in_imag !! Z.to_nat i.
Proof.
  intros Hir Hii Hor Hoi. unfold bit_reverse.
  destruct (for_loop_inv
    (λ n '(o_r, o_i),
       length o_r = 256%nat ∧ length o_i = 256%nat ∧
       ∀ i, 0 <= i < n →
            o_r !! Z.to_nat (bit_reverse_idx i) = in_real !! Z.to_nat i ∧
            o_i !! Z.to_nat (bit_reverse_idx i) = in_imag !! Z.to_nat i)
    (Z.to_nat FFT_SIZE) 0 (bit_reverse_elem in_real in_imag)
    (out_real, out_imag))
    as ([o_r o_i] & Hrun & Hlr & Hli & Hperm).
  - repeat split; try assumption; lia.
  - intros n [o_r o_i] Hn (Hlr & Hli & Hperm).
    change (Z.of_nat (Z.to_nat FFT_SIZE)) with 256 in Hn.
    pose proof (bit_reverse_idx_range n) as Hrev.
    unfold bit_reverse_elem. cbv zeta.
    rewrite (load_total in_real), (load_total in_imag) by lia.
    cbn [mbind option_bind].
    rewrite (store_total o_r) by lia. cbn [mbind option_bind].
    rewrite (store_total o_i) by lia. cbn [mbind option_bind].
    eexists. split; [reflexivity|]. cbv beta iota.
    rewrite !length_insert. repeat split; try assumption.
    + destruct (Z.eq_dec i n) as [->|Hne].
      * rewrite list_lookup_insert_eq by lia. symmetry.
        apply list_lookup_lookup_total_lt. lia.
      * rewrite list_lookup_insert_ne;
          [apply Hperm; lia|].
        intros Heq. apply Hne. symmetry.
        pose proof (bit_reverse_idx_range i).
        apply bit_reverse_idx_inj; lia.
    + destruct (Z.eq_dec i n) as [->|Hne].
      * rewrite list_lookup_insert_eq by lia. symmetry.
        apply list_lookup_lookup_total_lt. lia.
      * rewrite list_lookup_insert_ne;
          [apply Hperm; lia|].
        intros Heq. apply Hne. symmetry.
        pose proof (bit_reverse_idx_range i).
        apply bit_reverse_idx_inj; lia.
  - exists o_r, o_i. change (0 + Z.of_nat (Z.to_nat FFT_SIZE)) with 256 in Hperm.
    repeat split; try assumption; apply Hperm; assumption.
Qed.

(** C5. For input buffers of 256 elements (and output buffers of 256
    elements, separate from them), the permuter returns with
    [out_real[bitrev8(i)] = in_real[i]] and
    [out_imag[bitrev8(i)] = in_imag[i]] for every [i] in [[0, 256)], where
    bit [k] of [i] is bit [7 - k] of [bitrev8(i)]. *)
Theorem bit_reverse_permutes (in_real in_imag out_real out_imag : list Z) :
  length in_real = 256%nat → length in_imag = 256%nat →
  length out_real = 256%nat → length out_imag = 256%nat →
  ∃ rev_real rev_imag,
    bit_reverse in_real in_imag out_real out_imag = Some (rev_real, rev_imag) ∧
    ∀ i, 0 <= i < 256 →
         0 <= bit_reverse_idx i < 256 ∧
         rev_real !! Z.to_nat (bit_reverse_idx i) = in_real !! Z.to_nat i ∧
         rev_imag !! Z.to_nat (bit_reverse_idx i) = in_imag !! Z.to_nat i ∧
         ∀ k, 0 <= k < 8 →
              Z.testbit (bit_reverse_idx i) (7 - k) = Z.testbit i k.
Proof.
  intros Hir Hii Hor Hoi.
  destruct (bit_reverse_spec in_real in_imag out_real out_imag)
    as (rr & ri & Hrun & _ & _ & Hperm); try assumption.
  exists rr, ri. split; [assumption|].
  intros i Hi. split; [apply bit_reverse_idx_range|].
  destruct (Hperm i Hi) as [H1 H2]. repeat split; try assumption.
  intros k Hk. rewrite testbit_bit_reverse_idx by lia.
  replace (7 - k <? 8) with true by lia.
  now replace (7 - (7 - k)) with k by lia.
Qed.

Lemma bit_reverse_permutes_witness :
  ∃ rev_real rev_imag,
    bit_reverse (seqZ 0 256) (seqZ 256 256) fresh_buf fresh_buf
    = Some (rev_real, rev_imag) ∧
    ∀ i, 0 <= i < 256 →
         0 <= bit_reverse_idx i < 256 ∧
         rev_real !! Z.to_nat (bit_reverse_idx i) = seqZ 0 256 !! Z.to_nat i ∧
         rev_imag !! Z.to_nat (bit_reverse_idx i) = seqZ 256 256 !! Z.to_nat i ∧
         ∀ k, 0 <= k < 8 →
              Z.testbit (bit_reverse_idx i) (7 - k) = Z.testbit i k.
Proof. apply bit_reverse_permutes; reflexivity. Defined.

(** Reading the permuter the other way: element [n] of the output is
    element [bitrev8(n)] of the input. *)
Lemma bit_reverse_lookup (in_real in_imag out_real out_imag : list Z) :
  length in_real = 256%nat → length in_imag = 256%nat →
  length out_real = 256%nat → length out_imag = 256%nat →
  ∃ rev_real rev_imag,
    bit_reverse in_real in_imag out_real out_imag = Some (rev_real, rev_imag) ∧
    length rev_real = 256%nat ∧ length rev_imag = 256%nat ∧
    ∀ n, 0 <= n < 256 →
         rev_real !! Z.to_nat n = in_real !! Z.to_nat (bit_reverse_idx n) ∧
         rev_imag !! Z.to_nat n = in_imag !! Z.to_nat (bit_reverse_idx n).
Proof.
  intros Hir Hii Hor Hoi.
  destruct (bit_reverse_spec in_real in_imag out_real out_imag)
    as (rr & ri & Hrun & Hlr & Hli & Hperm); try assumption.
  exists rr, ri. repeat split; try assumption.
  - destruct (Hperm (bit_reverse_idx n)) as [H1 _];
      [apply bit_reverse_idx_range|].
    now rewrite bit_reverse_idx_twice in H1 by assumption.
  - destruct (Hperm (bit_reverse_idx n)) as [_ H2];
      [apply bit_reverse_idx_range|].
    now rewrite bit_reverse_idx_twice in H2 by assumption.
Qed.

(** ** The frame writer *)

Lemma output_frame_length (real_buf imag_buf : list Z) :
  length (output_frame real_buf imag_buf) = 256%nat.
Proof. unfold output_frame. now rewrite length_fmap, length_seqZ. Qed.

Lemma output_frame_lookup (real_buf imag_buf : list Z) n :
  0 <= n < 256 →
  output_frame real_buf imag_buf !! Z.to_nat n =
  Some (output_word (real_buf !!! Z.to_nat n) (imag_buf !!! Z.to_nat n) n).
Proof.
  intros Hn. unfold output_frame.
  rewrite list_lookup_fmap, lookup_seqZ_lt by (unfold FFT_SIZE; lia).
  simpl. now replace (0 + Z.of_nat (Z.to_nat n)) with n by lia.
Qed.

(** The writer returns and appends the 256 words of [output_frame]. *)
Lemma write_output_eq (real_buf imag_buf : list Z) (out_stream : stream) :
  length real_buf = 256%nat → length imag_buf = 256%nat →
  write_output real_buf imag_buf out_stream =
  Some (out_stream ++ output_frame real_buf imag_buf).
Proof.
  intros Hr Hi. unfold write_output.
  destruct (for_loop_inv
    (λ i s, s = out_stream ++ take (Z.to_nat i) (output_frame real_buf imag_buf))
    (Z.to_nat FFT_SIZE) 0 (write_word real_buf imag_buf) out_stream)
    as (s & Hrun & Hs).
  - simpl. now rewrite app_nil_r.
  - intros i s Hn ->.
    change (Z.of_nat (Z.to_nat FFT_SIZE)) with 256 in Hn.
    unfold write_word.
    rewrite (load_total real_buf), (load_total imag_buf) by lia.
    cbn [mbind option_bind]. eexists. split; [reflexivity|].
    unfold stream_write. rewrite <- app_assoc. f_equal.
    replace (Z.to_nat (i + 1)) with (S (Z.to_nat i)) by lia.
    symmetry. apply take_S_r. apply output_frame_lookup. lia.
  - refine (eq_trans Hrun _). subst s.
    change (Z.to_nat (0 + Z.of_nat (Z.to_nat FFT_SIZE))) with 256%nat.
    now rewrite take_ge by (rewrite output_frame_length; lia).
Qed.

(** C9. For buffers of 256 elements the writer emits exactly 256 words,
    in index order; word [n] holds the raw pattern of [real_buf[n]] in bits
    63..32 and that of [imag_buf[n]] in bits 31..0; [last] is set on word
    255 and clear on words 0..254; [keep] and [strb] are all ones. *)
Theorem write_output_frame (real_buf imag_buf : list Z) (out_stream : stream) :
  length real_buf = 256%nat → length imag_buf = 256%nat →
  ∃ words,
    write_output real_buf imag_buf out_stream = Some (out_stream ++ words) ∧
    length words = 256%nat ∧
    ∀ n, 0 <= n < 256 →
      ∃ val re im,
        words !! Z.to_nat n = Some val ∧
        real_buf !! Z.to_nat n = Some re ∧
        imag_buf !! Z.to_nat n = Some im ∧
        get_range (data val) 63 32 = Fixed.bits32 re ∧
        get_range (data val) 31 0 = Fixed.bits32 im ∧
        last val = (if n =? 255 then 1 else 0) ∧
        keep val = Z.ones 8 ∧
        strb val = Z.ones 8.
Proof.
  intros Hr Hi. exists (output_frame real_buf imag_buf).
  split; [now apply write_output_eq|].
  split; [apply output_frame_length|].
  intros n Hn. eexists _, _, _.
  split; [now apply output_frame_lookup|].
  split; [apply list_lookup_lookup_total_lt; lia|].
  split; [apply list_lookup_lookup_total_lt; lia|].
  unfold output_word. cbn [data keep strb last]. unfold pack_data.
  rewrite pack_data_real_bits, pack_data_imag_bits.
  repeat split; reflexivity.
Qed.

Lemma write_output_frame_witness :
  ∃ words,
    write_output (seqZ 0 256) (seqZ 256 256) [] = Some ([] ++ words) ∧
    length words = 256%nat ∧
    ∀ n, 0 <= n < 256 →
      ∃ val re im,
        words !! Z.to_nat n = Some val ∧
        seqZ 0 256 !! Z.to_nat n = Some re ∧
        seqZ 256 256 !! Z.to_nat n = Some im ∧
        get_range (data val) 63 32 = Fixed.bits32 re ∧
        get_range (data val) 31 0 = Fixed.bits32 im ∧
        last val = (if n =? 255 then 1 else 0) ∧
        keep val = Z.ones 8 ∧
        strb val = Z.ones 8.
Proof. apply write_output_frame; reflexivity. Defined.

(** ** The transform *)

(** Whatever 256 words are at the head of the input stream, the transform
    returns: it consumes them and appends 256 words to the output
    stream. *)
Lemma fft_eq (frame rest out_stream : stream) :
  length frame = 256%nat →
  ∃ rev_real rev_imag out_real out_imag,
    bit_reverse (word_real <$> frame) (word_imag <$> frame) fresh_buf fresh_buf
    = Some (rev_real, rev_imag) ∧
    stage_loop (rev_real, rev_imag) = Some (out_real, out_imag) ∧
    fft (frame ++ rest) out_stream
    = Some (rest, out_stream ++ output_frame out_real out_imag).
Proof.
  intros Hf. unfold fft.
  rewrite read_input_eq by (assumption || reflexivity).
  cbn [mbind option_bind].
  destruct (bit_reverse_spec (word_real <$> frame) (word_imag <$> frame)
              fresh_buf fresh_buf)
    as (rr & ri & Hrev & Hlr & Hli & _);
    try (rewrite length_fmap; assumption); try reflexivity.
  rewrite Hrev. cbn [mbind option_bind].
  rewrite fft_stages_eq by (assumption || reflexivity).
  destruct (stage_loop_total rr ri Hlr Hli) as (wr & wi & Hst & Hwr & Hwi).
  rewrite Hst. cbn [mbind option_bind].
  rewrite write_output_eq by assumption. cbn [mbind option_bind].
  exists rr, ri, wr, wi. repeat split; assumption.
Qed.

(** ** Framing *)

(** C1 (as stated, refuted). The frame of scenario 6 violates the framing
    rule, and yet the reader returns on it, and so does the whole
    transform, with an output frame written. *)
Lemma misframed_frame_accepted :
  Spec.framing_violation misframed_frame = true ∧
  read_input misframed_frame fresh_buf fresh_buf
  = Some ([], fresh_buf, fresh_buf) ∧
  fft misframed_frame [] = Some ([], output_frame fresh_buf fresh_buf).
Proof. repeat split; vm_compute; reflexivity. Qed.

(** C1 (amended). The reader has no framing check: for every input stream
    that holds at least 256 words, whatever their [last] flags, it returns,
    having consumed 256 words and stored the two halves of word [n] at
    index [n], and the transform appends its 256 output words. In
    particular no error is raised on a well-framed frame. *)
Theorem read_input_ignores_framing (frame rest out_stream : stream) :
  length frame = 256%nat →
  read_input (frame ++ rest) fresh_buf fresh_buf
  = Some (rest, word_real <$> frame, word_imag <$> frame) ∧
  ∃ words, fft (frame ++ rest) out_stream = Some (rest, out_stream ++ words) ∧
           length words = 256%nat.
Proof.
  intros Hf. split.
  - apply read_input_eq; (assumption || reflexivity).
  - destruct (fft_eq frame rest out_stream Hf)
      as (rr & ri & wr & wi & _ & _ & Hfft).
    eexists. split; [exact Hfft|]. apply output_frame_length.
Qed.

Lemma read_input_ignores_framing_witness :
  read_input (misframed_frame ++ []) fresh_buf fresh_buf
  = Some ([], word_real <$> misframed_frame, word_imag <$> misframed_frame) ∧
  ∃ words, fft (misframed_frame ++ []) [] = Some ([], [] ++ words) ∧
           length words = 256%nat.
Proof. apply read_input_ignores_framing. reflexivity. Defined.

(** ** Constant frames *)

Section Coefficients.
Variable c : Z.

Local Abbreviation f := (Coef.scale c).

Lemma coef_mul_sound m tw p :
  Coef.mul m tw = Some p → Fixed.mul (f m) tw = f p.
Proof.
  unfold Coef.mul, Coef.scale.
  destruct (Z.eqb_spec m 0) as [->|_]; [intros [= <-]; reflexivity|].
  destruct (Z.eqb_spec tw (2 ^ 16)) as [->|_].
  { intros [= <-]. apply mul_one_r, wrap32_range. }
  destruct (Z.eqb_spec tw 0) as [->|_]; [|discriminate].
  intros [= <-]. apply mul_0_r.
Qed.

Lemma coef_add_sound a b : Fixed.add (f a) (f b) = f (a + b).
Proof.
  unfold Fixed.add, Coef.scale. rewrite wrap32_add. f_equal. lia.
Qed.

Lemma coef_sub_sound a b : Fixed.sub (f a) (f b) = f (a - b).
Proof.
  unfold Fixed.sub, Coef.scale. rewrite wrap32_sub. f_equal. lia.
Qed.

Lemma conc_fmap ms : Coef.conc c ms = f <$> ms.
Proof. reflexivity. Qed.

(** A butterfly that succeeds on coefficients describes the butterfly
    of the code on the buffers they stand for. *)
Lemma coef_butterfly_sound stage k Wr Wi Wr' Wi' :
  Coef.butterfly stage k (Wr, Wi) = Some (Wr', Wi') →
  butterfly stage k (Coef.conc c Wr, Coef.conc c Wi)
  = Some (Coef.conc c Wr', Coef.conc c Wi').
Proof.
  unfold Coef.butterfly, butterfly. rewrite !conc_fmap. cbv zeta.
  generalize (butterfly_idx stage k). intros ix.
  rewrite !load_fmap.
  destruct (load TW_REAL (tw_idx ix)) as [tw_r|]; [|discriminate].
  destruct (load TW_IMAG (tw_idx ix)) as [tw_i|]; [|discriminate].
  destruct (load Wr (idx_top ix)) as [ar|]; [|discriminate].
  destruct (load Wi (idx_top ix)) as [ai|]; [|discriminate].
  destruct (load Wr (idx_bot ix)) as [br|]; [|discriminate].
  destruct (load Wi (idx_bot ix)) as [bi|]; [|discriminate].
  cbn [mbind option_bind fmap option_fmap option_map].
  destruct (Coef.mul br tw_r) as [brr|] eqn:E1; [|discriminate].
  destruct (Coef.mul bi tw_i) as [bii|] eqn:E2; [|discriminate].
  destruct (Coef.mul br tw_i) as [bri|] eqn:E3; [|discriminate].
  destruct (Coef.mul bi tw_r) as [bir|] eqn:E4; [|discriminate].
  cbn [mbind option_bind].
  rewrite (coef_mul_sound _ _ _ E1), (coef_mul_sound _ _ _ E2),
    (coef_mul_sound _ _ _ E3), (coef_mul_sound _ _ _ E4).
  rewrite !coef_sub_sound, !coef_add_sound, !coef_sub_sound.
  rewrite !store_fmap.
  destruct (store Wr (idx_top ix) _) as [Wr1|]; [|discriminate].
  destruct (store Wi (idx_top ix) _) as [Wi1|]; [|discriminate].
  cbn [mbind option_bind fmap option_fmap option_map].
  rewrite !store_fmap.
  destruct (store Wr1 (idx_bot ix) _) as [Wr2|]; [|discriminate].
  destruct (store Wi1 (idx_bot ix) _) as [Wi2|]; [|discriminate].
  cbn [mbind option_bind fmap option_fmap option_map].
  now intros [= <- <-].
Qed.

Lemma coef_stage_loop_sound Wr Wi Wr' Wi' :
  Coef.stage_loop (Wr, Wi) = Some (Wr', Wi') →
  stage_loop (Coef.conc c Wr, Coef.conc c Wi)
  = Some (Coef.conc c Wr', Coef.conc c Wi').
Proof.
  intros H. unfold Coef.stage_loop in H. unfold stage_loop.
  set (R := λ (A B : list Z * list Z),
              B = (Coef.conc c A.1, Coef.conc c A.2)).
  destruct (for_loop_sim R (Z.to_nat LOG2_FFT_SIZE) 0
    (λ stage w, for_loop (Z.to_nat (FFT_SIZE / 2)) 0 (Coef.butterfly stage) w)
    (λ stage w, for_loop (Z.to_nat (FFT_SIZE / 2)) 0 (butterfly stage) w)
    (Wr, Wi) (Coef.conc c Wr, Coef.conc c Wi) (Wr', Wi'))
    as (w' & Hrun & Hw'); [reflexivity| |exact H|].
  - intros stage A B A' HAB HA.
    destruct (for_loop_sim R (Z.to_nat (FFT_SIZE / 2)) 0
      (Coef.butterfly stage) (butterfly stage) A B A')
      as (B' & Hrun & HB'); [exact HAB| |exact HA|].
    + intros k [Ar Ai] B0 [Ar' Ai'] -> HB. eexists. split; [|reflexivity].
      now apply coef_butterfly_sound.
    + exists B'. split; assumption.
  - rewrite Hrun. now rewrite Hw'.
Qed.

End Coefficients.

(** On the coefficients of a constant frame the eight stages leave [256]
    in bin 0 and [0] everywhere else. *)
Lemma coef_stage_loop_const :
  Coef.stage_loop (replicate 256 1, replicate 256 0)
  = Some (256 :: replicate 255 0, replicate 256 0).
Proof. vm_compute. reflexivity. Qed.

Lemma fmap_replicate_const {A B} (g : A → B) (y : B) (l : list A) :
  (∀ x, x ∈ l → g x = y) → g <$> l = replicate (length l) y.
Proof.
  induction l as [|x l IH]; intros H; [reflexivity|].
  cbn [fmap list_fmap length replicate]. f_equal.
  - apply H. left.
  - apply IH. intros x' Hx'. apply H. now right.
Qed.

Lemma const_frame_length c : length (const_frame c) = 256%nat.
Proof. unfold const_frame. now rewrite length_fmap, length_seqZ. Qed.

Lemma const_frame_real c :
  Fixed.in_range c → word_real <$> const_frame c = replicate 256 c.
Proof.
  intros Hc. rewrite <- (const_frame_length c). apply fmap_replicate_const.
  intros w [n [-> _]]%list_elem_of_fmap. unfold word_real, sample_word.
  cbn [data]. rewrite unpack_pack_wrap. cbn [fst snd].
  now rewrite ?wrap32_id.
Qed.

Lemma const_frame_imag c :
  Fixed.in_range c → word_imag <$> const_frame c = replicate 256 0.
Proof.
  intros Hc. rewrite <- (const_frame_length c). apply fmap_replicate_const.
  intros w [n [-> _]]%list_elem_of_fmap. unfold word_imag, sample_word.
  cbn [data]. rewrite unpack_pack_wrap. cbn [fst snd].
  now rewrite ?wrap32_id.
Qed.

(** Permuting constant buffers changes nothing. *)
Lemma bit_reverse_const (x y : Z) (out_real out_imag : list Z) :
  length out_real = 256%nat → length out_imag = 256%nat →
  bit_reverse (replicate 256 x) (replicate 256 y) out_real out_imag
  = Some (replicate 256 x, replicate 256 y).
Proof.
  intros Hor Hoi.
  destruct (bit_reverse_lookup (replicate 256 x) (replicate 256 y)
              out_real out_imag)
    as (rr & ri & -> & Hlr & Hli & Hperm);
    try assumption; try apply length_replicate.
  f_equal. f_equal.
  - apply list_eq. intros n. destruct (decide (n < 256)%nat) as [Hn|Hn].
    + destruct (Hperm (Z.of_nat n)) as [H1 _]; [lia|].
      rewrite Nat2Z.id in H1. rewrite H1.
      pose proof (bit_reverse_idx_range (Z.of_nat n)).
      rewrite !lookup_replicate_2 by lia. reflexivity.
    + rewrite !lookup_ge_None_2; [reflexivity| |]; rewrite ?length_replicate; lia.
  - apply list_eq. intros n. destruct (decide (n < 256)%nat) as [Hn|Hn].
    + destruct (Hperm (Z.of_nat n)) as [_ H2]; [lia|].
      rewrite Nat2Z.id in H2. rewrite H2.
      pose proof (bit_reverse_idx_range (Z.of_nat n)).
      rewrite !lookup_replicate_2 by lia. reflexivity.
    + rewrite !lookup_ge_None_2; [reflexivity| |]; rewrite ?length_replicate; lia.
Qed.

(** Unpacking the words of an output frame gives the buffers back. *)
Lemma output_frame_real (real_buf imag_buf : list Z) :
  length real_buf = 256%nat → length imag_buf = 256%nat →
  Forall Fixed.in_range real_buf → Forall Fixed.in_range imag_buf →
  word_real <$> output_frame real_buf imag_buf = real_buf.
Proof.
  intros Hlr Hli Hr Hi. apply list_eq. intros n.
  rewrite list_lookup_fmap.
  destruct (decide (n < 256)%nat) as [Hn|Hn].
  - rewrite <- (Nat2Z.id n), output_frame_lookup by lia.
    rewrite !Nat2Z.id. cbn [fmap option_fmap option_map].
    unfold word_real, output_word. cbn [data].
    rewrite unpack_pack_wrap. cbn [fst snd].
    rewrite wrap32_id by (apply in_range_lookup_total; (assumption || lia)).
    symmetry. apply list_lookup_lookup_total_lt. lia.
  - rewrite !lookup_ge_None_2; [reflexivity| |];
      rewrite ?output_frame_length; lia.
Qed.

Lemma output_frame_imag (real_buf imag_buf : list Z) :
  length real_buf = 256%nat → length imag_buf = 256%nat →
  Forall Fixed.in_range real_buf → Forall Fixed.in_range imag_buf →
  word_imag <$> output_frame real_buf imag_buf = imag_buf.
Proof.
  intros Hlr Hli Hr Hi. apply list_eq. intros n.
  rewrite list_lookup_fmap.
  destruct (decide (n < 256)%nat) as [Hn|Hn].
  - rewrite <- (Nat2Z.id n), output_frame_lookup by lia.
    rewrite !Nat2Z.id. cbn [fmap option_fmap option_map].
    unfold word_imag, output_word. cbn [data].
    rewrite unpack_pack_wrap. cbn [fst snd].
    rewrite wrap32_id by (apply in_range_lookup_total; (assumption || lia)).
    symmetry. apply list_lookup_lookup_total_lt. lia.
  - rewrite !lookup_ge_None_2; [reflexivity| |];
      rewrite ?output_frame_length; lia.
Qed.

Lemma conc_in_range c ms : Forall Fixed.in_range (Coef.conc c ms).
Proof.
  unfold Coef.conc. apply Forall_fmap, Forall_forall. intros m _.
  apply wrap32_range.
Qed.

(** C2. For every Q16.16 constant [c], the transform of the frame whose
    256 samples are all [(c, 0)] returns; its output frame has 256 words;
    bin 0 carries the real part [256 * c] wrapped to 32 bits and the
    imaginary part [0]; bins 1..255 carry exactly [(0, 0)]. *)
Theorem fft_const_frame (c : fixed_t) :
  Fixed.in_range c →
  ∃ words,
    fft (const_frame c) [] = Some ([], words) ∧
    word_real <$> words = Fixed.wrap32 (256 * c) :: replicate 255 0 ∧
    word_imag <$> words = replicate 256 0.
Proof.
  intros Hc.
  destruct (fft_eq (const_frame c) [] [] (const_frame_length c))
    as (rr & ri & wr & wi & Hrev & Hst & Hfft).
  rewrite const_frame_real, const_frame_imag, bit_reverse_const in Hrev
    by (assumption || reflexivity).
  assert (rr = replicate 256 c ∧ ri = replicate 256 0) as [-> ->]
    by (split; congruence).
  assert (replicate 256 c = Coef.conc c (replicate 256 1)) as Er.
  { unfold Coef.conc. rewrite fmap_replicate. f_equal.
    unfold Coef.scale. rewrite Z.mul_1_l. symmetry. now apply wrap32_id. }
  assert (replicate 256 0 = Coef.conc c (replicate 256 0)) as Ei
    by (unfold Coef.conc; now rewrite fmap_replicate).
  rewrite Er, Ei in Hst.
  rewrite (coef_stage_loop_sound c _ _ _ _ coef_stage_loop_const) in Hst.
  assert (wr = Coef.conc c (256 :: replicate 255 0) ∧
          wi = Coef.conc c (replicate 256 0)) as [-> ->]
    by (split; congruence).
  rewrite app_nil_r, app_nil_l in Hfft.
  eexists. split; [exact Hfft|].
  rewrite output_frame_real, output_frame_imag
    by (apply conc_in_range || apply length_fmap).
  split; reflexivity.
Qed.

Lemma fft_const_frame_witness :
  ∃ words,
    fft (const_frame 65536) [] = Some ([], words) ∧
    word_real <$> words = Fixed.wrap32 (256 * 65536) :: replicate 255 0 ∧
    word_imag <$> words = replicate 256 0.
Proof. apply fft_const_frame. unfold Fixed.in_range. lia. Defined.

(** ** The permutation is an involution *)

(** C8. For every [i] in [[0, 256)], reversing the bits of the reversed
    index gives [i] back; accordingly the permuter applied twice returns
    the buffers it started from. *)
Theorem bit_reverse_idx_involutive (i : Z) (in_real in_imag : list Z) :
  0 <= i < 256 →
  length in_real = 256%nat → length in_imag = 256%nat →
  bit_reverse_idx (bit_reverse_idx i) = i ∧
  ∃ rev_real rev_imag,
    bit_reverse in_real in_imag fresh_buf fresh_buf
    = Some (rev_real, rev_imag) ∧
    bit_reverse rev_real rev_imag fresh_buf fresh_buf
    = Some (in_real, in_imag).
Proof.
  intros Hi Hlr Hli. split; [now apply bit_reverse_idx_twice|].
  destruct (bit_reverse_lookup in_real in_imag fresh_buf fresh_buf)
    as (rr & ri & Hrun & Hrr & Hri & Hperm); try (assumption || reflexivity).
  exists rr, ri. split; [assumption|].
  destruct (bit_reverse_lookup rr ri fresh_buf fresh_buf)
    as (rr2 & ri2 & -> & Hrr2 & Hri2 & Hperm2); try (assumption || reflexivity).
  f_equal. f_equal.
  - apply list_eq. intros n. destruct (decide (n < 256)%nat) as [Hn|Hn].
    + destruct (Hperm2 (Z.of_nat n)) as [H1 _]; [lia|].
      destruct (Hperm (bit_reverse_idx (Z.of_nat n))) as [H2 _];
        [apply bit_reverse_idx_range|].
      rewrite Nat2Z.id in H1. rewrite H1, H2.
      now rewrite bit_reverse_idx_twice, Nat2Z.id by lia.
    + rewrite !lookup_ge_None_2; [reflexivity| |]; lia.
  - apply list_eq. intros n. destruct (decide (n < 256)%nat) as [Hn|Hn].
    + destruct (Hperm2 (Z.of_nat n)) as [_ H1]; [lia|].
      destruct (Hperm (bit_reverse_idx (Z.of_nat n))) as [_ H2];
        [apply bit_reverse_idx_range|].
      rewrite Nat2Z.id in H1. rewrite H1, H2.
      now rewrite bit_reverse_idx_twice, Nat2Z.id by lia.
    + rewrite !lookup_ge_None_2; [reflexivity| |]; lia.
Qed.

Lemma bit_reverse_idx_involutive_witness :
  bit_reverse_idx (bit_reverse_idx 6) = 6 ∧
  ∃ rev_real rev_imag,
    bit_reverse (seqZ 0 256) (seqZ 256 256) fresh_buf fresh_buf
    = Some (rev_real, rev_imag) ∧
    bit_reverse rev_real rev_imag fresh_buf fresh_buf
    = Some (seqZ 0 256, seqZ 256 256).
Proof. apply bit_reverse_idx_involutive; (lia || reflexivity). Defined.

(** ** The twiddle tables against cosine and sine *)

Section TrigFacts.
Import Trig.
Local Open Scope R_scope.

(** *** Real arithmetic *)

Lemma sq_le_le a b : 0 <= a -> 0 <= b -> a * a <= b * b -> a <= b.
Proof. intros Ha Hb H. nra. Qed.

Lemma prod_le a b a' b' :
  0 <= a -> 0 <= b -> a <= a' -> b <= b' -> a * b <= a' * b'.
Proof. intros. apply Rmult_le_compat; assumption. Qed.

Lemma cos_half_lo_real d c l lo :
  0 < d -> 0 <= c -> 0 <= l ->
  2 * (l * l) <= d * d + d * lo -> lo <= (2 * c * c - 1) * d -> l <= c * d.
Proof.
  intros Hd Hc Hl H1 H2.
  assert (d * lo <= d * ((2 * c * c - 1) * d)) as H3
    by (apply Rmult_le_compat_l; lra).
  apply sq_le_le; [assumption|nra|nra].
Qed.

Lemma cos_half_hi_real d c h hi :
  0 < d -> 0 <= c -> 0 <= h ->
  d * d + d * hi <= 2 * (h * h) -> (2 * c * c - 1) * d <= hi -> c * d <= h.
Proof.
  intros Hd Hc Hh H1 H2.
  assert (d * ((2 * c * c - 1) * d) <= d * hi) as H3
    by (apply Rmult_le_compat_l; lra).
  apply sq_le_le; [nra|assumption|nra].
Qed.

Lemma sin_half_lo_real d s l hi :
  0 < d -> 0 <= s -> 0 <= l ->
  2 * (l * l) <= d * d - d * hi -> (1 - 2 * s * s) * d <= hi -> l <= s * d.
Proof.
  intros Hd Hs Hl H1 H2.
  assert (d * ((1 - 2 * s * s) * d) <= d * hi) as H3
    by (apply Rmult_le_compat_l; lra).
  apply sq_le_le; [assumption|nra|nra].
Qed.

Lemma sin_half_hi_real d s h lo :
  0 < d -> 0 <= s -> 0 <= h ->
  d * d - d * lo <= 2 * (h * h) -> lo <= (1 - 2 * s * s) * d -> s * d <= h.
Proof.
  intros Hd Hs Hh H1 H2.
  assert (d * lo <= d * ((1 - 2 * s * s) * d)) as H3
    by (apply Rmult_le_compat_l; lra).
  apply sq_le_le; [nra|assumption|nra].
Qed.

(** *** Integer square roots and quotients *)

Lemma D_pos : (0 < D)%Z.
Proof. reflexivity. Qed.

Lemma IZR_D_pos : 0 < IZR D.
Proof. apply (IZR_lt 0). exact D_pos. Qed.

Lemma quot_div N : quot N = (N / D)%Z.
Proof. unfold quot, D. now rewrite Z.shiftr_div_pow2 by lia. Qed.

Lemma div_lo N x : IZR N <= x * IZR D -> IZR (quot N) <= x.
Proof.
  intros H. rewrite quot_div. pose proof IZR_D_pos as HD.
  assert (IZR (N / D) * IZR D <= IZR N) as Hdiv.
  { rewrite <- mult_IZR. apply IZR_le.
    pose proof (Z.mul_div_le N D D_pos). lia. }
  apply Rmult_le_reg_r with (IZR D); [assumption|].
  apply Rle_trans with (IZR N); assumption.
Qed.

Lemma div_hi N x : x * IZR D <= IZR N -> x <= IZR (quot N + 1).
Proof.
  intros H. rewrite quot_div. pose proof IZR_D_pos as HD.
  assert (IZR N <= IZR (N / D + 1) * IZR D) as Hdiv.
  { rewrite <- mult_IZR. apply IZR_le.
    pose proof (Z.mul_succ_div_gt N D D_pos). lia. }
  apply Rmult_le_reg_r with (IZR D); [assumption|].
  apply Rle_trans with (IZR N); assumption.
Qed.

Lemma sqrt_half_lo N :
  (0 <= N)%Z ->
  (0 <= Z.sqrt (N / 2) /\ 2 * (Z.sqrt (N / 2) * Z.sqrt (N / 2)) <= N)%Z.
Proof.
  intros HN.
  assert (0 <= N / 2)%Z as HM by (apply Z.div_pos; lia).
  pose proof (Z.sqrt_spec (N / 2) HM) as [Hs _].
  pose proof (Z.sqrt_nonneg (N / 2)).
  pose proof (Z.mul_div_le N 2). lia.
Qed.

Lemma sqrt_half_hi N :
  (0 <= N)%Z ->
  (0 <= Z.sqrt (N / 2) + 1 /\
   N <= 2 * ((Z.sqrt (N / 2) + 1) * (Z.sqrt (N / 2) + 1)))%Z.
Proof.
  intros HN.
  assert (0 <= N / 2)%Z as HM by (apply Z.div_pos; lia).
  pose proof (Z.sqrt_spec (N / 2) HM) as [_ Hs].
  pose proof (Z.sqrt_nonneg (N / 2)).
  pose proof (Z.mul_succ_div_gt N 2). lia.
Qed.

(** *** Halving an angle *)

Lemma cos_half_angle y lo hi :
  0 <= cos y -> (0 <= lo)%Z ->
  IZR lo <= cos (2 * y) * IZR D <= IZR hi ->
  (0 <= half_lo lo)%Z /\
  IZR (half_lo lo) <= cos y * IZR D <= IZR (half_hi hi).
Proof.
  intros Hc Hlo [H1 H2]. pose proof IZR_D_pos as HD. pose proof D_pos as HDz.
  assert (lo <= hi)%Z as Hlh by (apply le_IZR; eapply Rle_trans; eassumption).
  destruct (sqrt_half_lo (D * D + D * lo)) as [Hl0 Hl]; [nia|].
  destruct (sqrt_half_hi (D * D + D * hi)) as [Hh0 Hh]; [nia|].
  fold (half_lo lo) in Hl0, Hl. fold (half_hi hi) in Hh0, Hh.
  split; [assumption|].
  apply IZR_le in Hl, Hh. apply (IZR_le 0) in Hl0, Hh0.
  rewrite ?plus_IZR, ?mult_IZR in Hl, Hh.
  rewrite cos_2a_cos in H1, H2.
  split.
  - eapply cos_half_lo_real; eassumption.
  - eapply cos_half_hi_real; eassumption.
Qed.

Lemma half_angle_range n : 0 < PI / 2 ^ (S n) <= PI / 2.
Proof.
  pose proof PI_RGT_0 as Hpi.
  assert (1 <= 2 ^ n) as Hp by (apply pow_R1_Rle; lra).
  assert (0 < 2 ^ S n) as Hq by (simpl; lra).
  split.
  - apply Rdiv_lt_0_compat; assumption.
  - apply Rmult_le_reg_r with (2 ^ S n); [assumption|].
    unfold Rdiv. rewrite Rmult_assoc, Rinv_l by lra. simpl. nra.
Qed.

Lemma cos_half_sound n :
  (0 <= (cos_half n).1)%Z /\
  IZR (cos_half n).1 <= cos (PI / 2 ^ S n) * IZR D <= IZR (cos_half n).2.
Proof.
  induction n as [|n [IH0 IH]].
  - simpl. replace (PI / (2 * 1)) with (PI / 2) by field.
    rewrite cos_PI2. split; [lia|]. lra.
  - cbn [cos_half]. destruct (cos_half n) as [lo hi]. cbn [fst snd] in *.
    apply cos_half_angle; [|assumption|].
    + destruct (half_angle_range (S n)) as [H1 H2].
      apply cos_ge_0; lra.
    + replace (2 * (PI / 2 ^ S (S n))) with (PI / 2 ^ S n); [assumption|].
      assert (0 < 2 ^ S n) by (apply pow_lt; lra).
      simpl. simpl in H. field. lra.
Qed.

Lemma sin_half_angle y lo hi :
  0 <= sin y -> (hi <= D)%Z ->
  IZR lo <= cos (2 * y) * IZR D <= IZR hi ->
  IZR (Z.sqrt ((D * D - D * hi) / 2)) <= sin y * IZR D
  <= IZR (Z.sqrt ((D * D - D * lo) / 2) + 1).
Proof.
  intros Hs Hhi [H1 H2]. pose proof IZR_D_pos as HD. pose proof D_pos as HDz.
  assert (lo <= hi)%Z as Hlh by (apply le_IZR; eapply Rle_trans; eassumption).
  destruct (sqrt_half_lo (D * D - D * hi)) as [Hl0 Hl]; [nia|].
  destruct (sqrt_half_hi (D * D - D * lo)) as [Hh0 Hh]; [nia|].
  set (l := Z.sqrt ((D * D - D * hi) / 2)) in *.
  set (h := (Z.sqrt ((D * D - D * lo) / 2) + 1)%Z) in *.
  apply IZR_le in Hl, Hh. apply (IZR_le 0) in Hl0, Hh0.
  rewrite ?minus_IZR, ?mult_IZR in Hl, Hh.
  rewrite cos_2a_sin in H1, H2.
  split.
  - eapply sin_half_lo_real; eassumption.
  - eapply sin_half_hi_real; eassumption.
Qed.

Lemma base_sound : sound base theta.
Proof.
  pose proof (cos_half_sound 5) as [_ H5].
  pose proof (cos_half_sound 6) as [_ H6].
  destruct (half_angle_range 6) as [Hr1 Hr2].
  replace (PI / 2 ^ 7) with theta in * by (unfold theta; simpl; field).
  replace (PI / 2 ^ 6) with (2 * theta) in H5 by (unfold theta; simpl; field).
  change base with base_of_halves. unfold sound, base_of_halves.
  destruct (cos_half 5) as [lo2 hi2] eqn:E5.
  destruct (cos_half 6) as [lo hi] eqn:E6.
  cbn [clo chi slo shi fst snd] in *. split; [assumption|].
  apply sin_half_angle; [| |assumption].
  - apply sin_ge_0; lra.
  - assert (hi2 = (cos_half 5).2) as -> by now rewrite E5.
    vm_compute. discriminate.
Qed.

(** *** Rotating by the base angle *)

Lemma rot_sound e x :
  nonneg e = true -> sound e x -> sound (rot e) (x + theta).
Proof.
  intros Hn [[Hc1 Hc2] [Hs1 Hs2]].
  destruct base_sound as [[Bc1 Bc2] [Bs1 Bs2]].
  assert (nonneg base = true) as Hb by (vm_compute; reflexivity).
  unfold nonneg in Hn, Hb.
  apply andb_prop in Hn as [Hn1 Hn2], Hb as [Hb1 Hb2].
  apply Z.leb_le, (IZR_le 0) in Hn1, Hn2, Hb1, Hb2.
  pose proof IZR_D_pos as HD.
  set (d := IZR D) in *.
  assert (0 <= cos x * d) by lra. assert (0 <= sin x * d) by lra.
  assert (0 <= cos theta * d) by lra. assert (0 <= sin theta * d) by lra.
  pose proof (prod_le _ _ _ _ Hn1 Hb1 Hc1 Bc1).
  pose proof (prod_le _ _ _ _ H H1 Hc2 Bc2).
  pose proof (prod_le _ _ _ _ Hn2 Hb2 Hs1 Bs1).
  pose proof (prod_le _ _ _ _ H0 H2 Hs2 Bs2).
  pose proof (prod_le _ _ _ _ Hn2 Hb1 Hs1 Bc1).
  pose proof (prod_le _ _ _ _ H0 H1 Hs2 Bc2).
  pose proof (prod_le _ _ _ _ Hn1 Hb2 Hc1 Bs1).
  pose proof (prod_le _ _ _ _ H H2 Hc2 Bs2).
  unfold sound, rot. cbn [clo chi slo shi].
  rewrite cos_plus, sin_plus.
  repeat split.
  - apply div_lo. rewrite minus_IZR, !mult_IZR. fold d. lra.
  - apply div_hi. rewrite minus_IZR, !mult_IZR. fold d. lra.
  - apply div_lo. rewrite plus_IZR, !mult_IZR. fold d. lra.
  - apply div_hi. rewrite plus_IZR, !mult_IZR. fold d. lra.
Qed.

Lemma angle_nonneg m : (m < 64)%nat -> nonneg (angle m) = true.
Proof.
  intros Hm.
  assert (forallb (fun m => nonneg (angle m)) (seq 0 64) = true) as H
    by (vm_compute; reflexivity).
  rewrite forallb_forall in H. apply H. apply in_seq. lia.
Qed.

Lemma angle_sound m : (m <= 64)%nat -> sound (angle m) (INR m * theta).
Proof.
  induction m as [|m IH]; intros Hm.
  - unfold sound. cbn [angle clo chi slo shi]. simpl INR.
    rewrite Rmult_0_l, cos_0, sin_0. change (IZR 0) with 0. lra.
  - rewrite S_INR.
    replace ((INR m + 1) * theta) with (INR m * theta + theta) by ring.
    cbn [angle]. apply rot_sound; [apply angle_nonneg; lia|apply IH; lia].
Qed.
(** *** Reading off the table entries *)

Lemma floor_of_sound lo hi x t :
  IZR lo <= x * IZR D <= IZR hi ->
  floor_of lo hi = Some t -> Zfloor (x * 65536) = t.
Proof.
  intros [H1 H2]. unfold floor_of. cbv zeta.
  destruct (Z.ltb_spec (2 ^ 16 * hi) ((quot (2 ^ 16 * lo) + 1) * D)) as [Hlt|];
    [|discriminate].
  intros [= <-]. pose proof IZR_D_pos as HD.
  apply Zfloor_eq. split.
  - apply div_lo. rewrite mult_IZR. change (IZR (2 ^ 16)) with 65536.
    apply Rle_trans with (65536 * (x * IZR D)); [|lra].
    apply Rmult_le_compat_l; lra.
  - apply IZR_lt in Hlt. rewrite !mult_IZR in Hlt.
    change (IZR (2 ^ 16)) with 65536 in Hlt.
    apply Rmult_lt_reg_r with (IZR D); [assumption|].
    rewrite <- (plus_IZR _ 1).
    apply Rle_lt_trans with (65536 * IZR hi); [|assumption].
    apply Rle_trans with (65536 * (x * IZR D)); [lra|].
    apply Rmult_le_compat_l; lra.
Qed.

Lemma encl_opp lo hi x :
  IZR lo <= x * IZR D <= IZR hi -> IZR (- hi) <= - x * IZR D <= IZR (- lo).
Proof. intros [H1 H2]. rewrite !opp_IZR. lra. Qed.

Lemma cos_quarter_plus x : cos (PI / 2 + x) = - sin x.
Proof. rewrite cos_plus, cos_PI2, sin_PI2. ring. Qed.

Lemma sin_quarter_plus x : sin (PI / 2 + x) = cos x.
Proof. rewrite sin_plus, cos_PI2, sin_PI2. ring. Qed.

(** Cosine and sine of the twiddle angle in terms of the first quadrant. *)
Lemma twiddle_low k :
  cos (Spec.twiddle_angle k) = cos (INR k * theta) /\
  sin (Spec.twiddle_angle k) = - sin (INR k * theta).
Proof.
  unfold Spec.twiddle_angle, theta.
  replace (2 * PI * INR k / 256) with (INR k * (PI / 128)) by field.
  now rewrite cos_neg, sin_neg.
Qed.

Lemma twiddle_high m :
  cos (Spec.twiddle_angle (64 + m)) = - sin (INR m * theta) /\
  sin (Spec.twiddle_angle (64 + m)) = - cos (INR m * theta).
Proof.
  unfold Spec.twiddle_angle, theta. rewrite plus_INR.
  replace (2 * PI * (INR 64 + INR m) / 256)
    with (PI / 2 + INR m * (PI / 128)) by (simpl INR; field).
  now rewrite cos_neg, sin_neg, cos_quarter_plus, sin_quarter_plus.
Qed.

Lemma table_entries_ok k : (k < 128)%nat -> table_entry_ok k = true.
Proof.
  intros Hk.
  assert (forallb table_entry_ok (seq 0 128) = true) as H
    by (vm_compute; reflexivity).
  rewrite forallb_forall in H. apply H. apply in_seq. lia.
Qed.

(** C4 (amended). For every [k] in [[0, 128)], [TW_REAL[k]] and
    [TW_IMAG[k]] are [cos (-2 pi k / 256)] and [sin (-2 pi k / 256)]
    multiplied by [2^16] and rounded toward minus infinity. *)
Theorem twiddle_tables_floor (k : nat) :
  (k < 128)%nat ->
  TW_REAL !! k = Some (Zfloor (cos (Spec.twiddle_angle k) * 65536)) /\
  TW_IMAG !! k = Some (Zfloor (sin (Spec.twiddle_angle k) * 65536)).
Proof.
  intros Hk. pose proof (table_entries_ok k Hk) as Hok.
  unfold table_entry_ok, tw_real_floor, tw_imag_floor in Hok.
  destruct (TW_REAL !! k) as [r|]; [|discriminate].
  destruct (TW_IMAG !! k) as [i|] eqn:Ei.
  2:{ destruct (if (k <? 64)%nat then _ else _); discriminate. }
  destruct (Nat.ltb_spec k 64) as [Hlo|Hhi].
  - destruct (angle_sound k) as [Hc Hs]; [lia|].
    destruct (twiddle_low k) as [-> ->].
    cbv zeta in Hok.
    destruct (floor_of (clo (angle k)) (chi (angle k))) as [r'|] eqn:Er;
      [|discriminate].
    destruct (floor_of (- shi (angle k)) (- slo (angle k))) as [i'|] eqn:Ei';
      [|discriminate].
    apply andb_prop in Hok as [->%Z.eqb_eq ->%Z.eqb_eq].
    split; f_equal; symmetry.
    + eapply floor_of_sound; eassumption.
    + eapply floor_of_sound; [|eassumption]. now apply encl_opp.
  - replace k with (64 + (k - 64))%nat at 1 2 by lia.
    destruct (angle_sound (k - 64)) as [Hc Hs]; [lia|].
    destruct (twiddle_high (k - 64)) as [-> ->].
    cbv zeta in Hok.
    destruct (floor_of (- shi (angle (k - 64))) (- slo (angle (k - 64))))
      as [r'|] eqn:Er; [|discriminate].
    destruct (floor_of (- chi (angle (k - 64))) (- clo (angle (k - 64))))
      as [i'|] eqn:Ei'; [|discriminate].
    apply andb_prop in Hok as [->%Z.eqb_eq ->%Z.eqb_eq].
    split; f_equal; symmetry.
    + eapply floor_of_sound; [|eassumption]. now apply encl_opp.
    + eapply floor_of_sound; [|eassumption]. now apply encl_opp.
Qed.

Lemma twiddle_tables_floor_witness :
  TW_REAL !! 65%nat = Some (Zfloor (cos (Spec.twiddle_angle 65) * 65536)) /\
  TW_IMAG !! 65%nat = Some (Zfloor (sin (Spec.twiddle_angle 65) * 65536)).
Proof. apply twiddle_tables_floor. lia. Defined.

(** The scaled sine of the first twiddle angle lies strictly between
    two integers. *)
Lemma twiddle_imag_1 :
  -1609 < sin (Spec.twiddle_angle 1) * 65536 < -1608.
Proof.
  destruct (angle_sound 1) as [_ Hs]; [lia|].
  destruct (twiddle_low 1) as [_ ->].
  assert (floor_of (slo (angle 1)) (shi (angle 1)) = Some 1608%Z) as Hf
    by (vm_compute; reflexivity).
  assert (floor_of (- shi (angle 1)) (- slo (angle 1)) = Some (-1609)%Z) as Hg
    by (vm_compute; reflexivity).
  pose proof (floor_of_sound _ _ _ _ Hs Hf) as H1.
  pose proof (floor_of_sound _ _ _ _ (encl_opp _ _ _ Hs) Hg) as H2.
  pose proof (Zfloor_bound (sin (INR 1 * theta) * 65536)) as B1.
  pose proof (Zfloor_bound (- sin (INR 1 * theta) * 65536)) as B2.
  rewrite H1 in B1. rewrite H2 in B2. lra.
Qed.

(** C4 (as stated, refuted). [TW_IMAG[1]] is [-1609], while
    [sin (-2 pi / 256) * 2^16], truncated toward zero, is [-1608]. *)
Lemma twiddle_not_truncated_toward_zero :
  TW_IMAG !! 1%nat = Some (-1609)%Z /\
  Spec.from_double (sin (Spec.twiddle_angle 1)) = (-1608)%Z.
Proof.
  split; [reflexivity|].
  pose proof twiddle_imag_1 as [H1 H2].
  unfold Spec.from_double, Spec.round_toward_zero.
  destruct (Rle_dec 0 (sin (Spec.twiddle_angle 1) * 65536)) as [Hle|_]; [lra|].
  rewrite (Zceil_eq (-1608)); [reflexivity|]. lra.
Qed.
End TrigFacts.

(** * Further properties *)

(** ** Further properties of packing *)

Lemma testbit_wrap32_low x n :
  0 <= n < 32 → Z.testbit (Fixed.wrap32 x) n = Z.testbit x n.
Proof.
  intros Hn. pose proof (bits32_wrap32 x) as H.
  apply (f_equal (λ y, Z.testbit y n)) in H.
  rewrite !testbit_bits32 in H by lia.
  replace (n <? 32) with true in H by lia. now rewrite !andb_true_r in H.
Qed.

Lemma pack_unpack_id (packed : Z) :
  0 <= packed < 2 ^ 64 →
  pack_data (unpack_data packed).1 (unpack_data packed).2 = packed.
Proof.
  intros Hp. apply Z.bits_inj'. intros n Hn. unfold pack_data.
  rewrite testbit_pack_data_from by lia. unfold unpack_data. cbn [fst snd].
  destruct (Z.ltb_spec n 32).
  - rewrite testbit_wrap32_low, testbit_get_range by lia.
    replace (n + 0) with n by lia.
    replace (n <? 31 - 0 + 1) with true by lia. apply andb_true_r.
  - destruct (Z.ltb_spec n 64).
    + rewrite testbit_wrap32_low, testbit_get_range by lia.
      replace (n - 32 + 32) with n by lia.
      replace (n - 32 <? 63 - 32 + 1) with true by lia. apply andb_true_r.
    + rewrite Z.bits_0. symmetry. apply Z.bits_above_log2; [lia|].
      destruct (Z.eq_dec packed 0) as [->|Hne]; [simpl; lia|].
      apply Z.lt_le_trans with 64; [|lia]. apply Z.log2_lt_pow2; lia.
Qed.

(** X1. The two halves that [unpack_data] extracts from a 64-bit word are
    valid Q16.16 values, and packing them gives the word back. *)
Theorem pack_unpack_data (packed : Z) :
  0 <= packed < 2 ^ 64 →
  Fixed.in_range (unpack_data packed).1 ∧
  Fixed.in_range (unpack_data packed).2 ∧
  pack_data (unpack_data packed).1 (unpack_data packed).2 = packed.
Proof.
  intros Hp. split; [apply wrap32_range|]. split; [apply wrap32_range|].
  now apply pack_unpack_id.
Qed.

Lemma pack_unpack_data_witness :
  Fixed.in_range (unpack_data 81985529216486895).1 ∧
  Fixed.in_range (unpack_data 81985529216486895).2 ∧
  pack_data (unpack_data 81985529216486895).1 (unpack_data 81985529216486895).2
  = 81985529216486895.
Proof. apply pack_unpack_data. lia. Defined.

(** X2. The word that [pack_data] returns is a 64-bit value that depends
    on the two arguments only: whatever the local [packed] held before the
    two range assignments is overwritten. *)
Theorem pack_data_overwrites (packed0 : Z) (re im : Z) :
  0 <= packed0 < 2 ^ 64 →
  pack_data_from packed0 re im = pack_data re im ∧
  0 <= pack_data re im < 2 ^ 64.
Proof.
  intros Hp. split; [|apply pack_data_range].
  apply Z.bits_inj'. intros n Hn. unfold pack_data.
  rewrite !testbit_pack_data_from by lia.
  destruct (Z.ltb_spec n 32); [reflexivity|].
  destruct (Z.ltb_spec n 64); [reflexivity|].
  rewrite Z.bits_0. apply Z.bits_above_log2; [lia|].
  destruct (Z.eq_dec packed0 0) as [->|Hne]; [simpl; lia|].
  apply Z.lt_le_trans with 64; [|lia]. apply Z.log2_lt_pow2; lia.
Qed.

Lemma pack_data_overwrites_witness :
  pack_data_from 18446744073709551615 (-3) 7 = pack_data (-3) 7 ∧
  0 <= pack_data (-3) 7 < 2 ^ 64.
Proof. apply pack_data_overwrites. lia. Defined.

(** ** Further properties of the transform *)



Lemma word_real_data (frame : stream) :
  word_real <$> frame = (λ d, (unpack_data d).1) <$> (data <$> frame).
Proof. now rewrite <- list_fmap_compose. Qed.

Lemma word_imag_data (frame : stream) :
  word_imag <$> frame = (λ d, (unpack_data d).2) <$> (data <$> frame).
Proof. now rewrite <- list_fmap_compose. Qed.

(** X4. The transform reads only the [data] field of its input words:
    two frames that agree on [data] give the same result, whatever their
    [keep], [strb] and [last] fields are. *)
Theorem fft_reads_data_only (frame frame' rest out_stream : stream) :
  length frame = 256%nat →
  data <$> frame = data <$> frame' →
  fft (frame ++ rest) out_stream = fft (frame' ++ rest) out_stream.
Proof.
  intros Hlen Hdata.
  assert (length frame' = 256%nat) as Hlen'.
  { rewrite <- Hlen, <- (length_fmap data frame'), <- Hdata.
    now rewrite length_fmap. }
  unfold fft. rewrite !read_input_eq by (assumption || reflexivity).
  now rewrite !word_real_data, !word_imag_data, Hdata.
Qed.

Lemma fft_reads_data_only_witness :
  fft (misframed_frame ++ []) [] = fft (const_frame 0 ++ []) [].
Proof. apply fft_reads_data_only; reflexivity. Defined.

(** X5. Frames are transformed one by one, in order: on an input stream
    that holds two frames, two calls leave in the output stream the
    transform of the first followed by the transform of the second, each
    as it is computed on its own. *)
Theorem fft_frame_by_frame (frame1 frame2 : stream) :
  length frame1 = 256%nat → length frame2 = 256%nat →
  ∃ words1 words2,
    fft frame1 [] = Some ([], words1) ∧
    fft frame2 [] = Some ([], words2) ∧
    fft (frame1 ++ frame2) [] = Some (frame2, words1) ∧
    fft frame2 words1 = Some ([], words1 ++ words2).
Proof.
  intros H1 H2.
  destruct (fft_eq frame1 [] [] H1) as (r1 & i1 & wr1 & wi1 & Hb1 & Hs1 & Hf1).
  destruct (fft_eq frame1 frame2 [] H1)
    as (r1' & i1' & wr1' & wi1' & Hb1' & Hs1' & Hf1').
  destruct (fft_eq frame2 [] [] H2) as (r2 & i2 & wr2 & wi2 & Hb2 & Hs2 & Hf2).
  destruct (fft_eq frame2 [] (output_frame wr1 wi1) H2)
    as (r2' & i2' & wr2' & wi2' & Hb2' & Hs2' & Hf2').
  rewrite app_nil_r, app_nil_l in Hf1, Hf2. rewrite app_nil_r in Hf2'.
  rewrite app_nil_l in Hf1'.
  assert (r1' = r1 ∧ i1' = i1) as [-> ->] by (split; congruence).
  assert (wr1' = wr1 ∧ wi1' = wi1) as [-> ->] by (split; congruence).
  assert (r2' = r2 ∧ i2' = i2) as [-> ->] by (split; congruence).
  assert (wr2' = wr2 ∧ wi2' = wi2) as [-> ->] by (split; congruence).
  exists (output_frame wr1 wi1), (output_frame wr2 wi2).
  repeat split; assumption.
Qed.

Lemma fft_frame_by_frame_witness :
  ∃ words1 words2,
    fft (const_frame 65536) [] = Some ([], words1) ∧
    fft misframed_frame [] = Some ([], words2) ∧
    fft (const_frame 65536 ++ misframed_frame) []
    = Some (misframed_frame, words1) ∧
    fft misframed_frame words1 = Some ([], words1 ++ words2).
Proof. apply fft_frame_by_frame; reflexivity. Defined.

(** ** Further properties of the permuter *)

Lemma bit_reversed_indices_perm : bit_reversed_indices ≡ₚ seq 0 256.
Proof.
  apply NoDup_Permutation.
  - apply NoDup_fmap_2_strong; [|apply NoDup_seq].
    intros x y Hx%elem_of_seq Hy%elem_of_seq Heq.
    pose proof (bit_reverse_idx_range (Z.of_nat x)).
    pose proof (bit_reverse_idx_range (Z.of_nat y)).
    assert (Z.of_nat x = Z.of_nat y); [|lia].
    apply bit_reverse_idx_inj; lia.
  - apply NoDup_seq.
  - intros x. unfold bit_reversed_indices.
    rewrite list_elem_of_fmap, elem_of_seq. split.
    + intros (n & -> & Hn%elem_of_seq).
      pose proof (bit_reverse_idx_range (Z.of_nat n)). lia.
    + intros Hx. exists (Z.to_nat (bit_reverse_idx (Z.of_nat x))).
      pose proof (bit_reverse_idx_range (Z.of_nat x)).
      rewrite elem_of_seq. split; [|lia].
      rewrite Z2Nat.id, bit_reverse_idx_twice by lia. lia.
Qed.

Lemma list_as_lookups (l : list Z) n :
  length l = n → l = (λ i, l !!! i) <$> seq 0 n.
Proof.
  intros Hl. apply list_eq. intros i. rewrite list_lookup_fmap.
  destruct (decide (i < n)%nat) as [Hi|Hi].
  - rewrite lookup_seq_lt by lia. simpl.
    apply list_lookup_lookup_total_lt. lia.
  - rewrite lookup_seq_ge by lia. apply lookup_ge_None_2. lia.
Qed.

Lemma gathered_perm (src dst : list Z) :
  length src = 256%nat → length dst = 256%nat →
  (∀ n, 0 <= n < 256 →
        dst !! Z.to_nat n = src !! Z.to_nat (bit_reverse_idx n)) →
  dst ≡ₚ src.
Proof.
  intros Hs Hd H.
  assert (dst = (λ i, src !!! i) <$> bit_reversed_indices) as ->.
  { apply list_eq. intros i. unfold bit_reversed_indices.
    rewrite <- list_fmap_compose, list_lookup_fmap.
    destruct (decide (i < 256)%nat) as [Hi|Hi].
    - rewrite lookup_seq_lt by lia. simpl.
      specialize (H (Z.of_nat i)). rewrite Nat2Z.id in H. rewrite H by lia.
      apply list_lookup_lookup_total_lt.
      pose proof (bit_reverse_idx_range (Z.of_nat i)). lia.
    - rewrite lookup_seq_ge by lia. apply lookup_ge_None_2. lia. }
  rewrite bit_reversed_indices_perm.
  now rewrite <- (list_as_lookups src 256 Hs).
Qed.

(** X6. The permuter gathers: element [n] of the output is element
    [bitrev8(n)] of the input. Its result is a rearrangement of the input
    and does not depend on what the output buffers held before. *)
Theorem bit_reverse_gathers
    (in_real in_imag out_real out_imag out_real' out_imag' : list Z) :
  length in_real = 256%nat → length in_imag = 256%nat →
  length out_real = 256%nat → length out_imag = 256%nat →
  length out_real' = 256%nat → length out_imag' = 256%nat →
  ∃ rev_real rev_imag,
    bit_reverse in_real in_imag out_real out_imag = Some (rev_real, rev_imag) ∧
    bit_reverse in_real in_imag out_real' out_imag'
    = Some (rev_real, rev_imag) ∧
    (∀ n, 0 <= n < 256 →
          rev_real !! Z.to_nat n = in_real !! Z.to_nat (bit_reverse_idx n) ∧
          rev_imag !! Z.to_nat n = in_imag !! Z.to_nat (bit_reverse_idx n)) ∧
    rev_real ≡ₚ in_real ∧ rev_imag ≡ₚ in_imag.
Proof.
  intros Hir Hii Hor Hoi Hor' Hoi'.
  destruct (bit_reverse_lookup in_real in_imag out_real out_imag)
    as (rr & ri & Hrun & Hlr & Hli & Hperm); try assumption.
  destruct (bit_reverse_lookup in_real in_imag out_real' out_imag')
    as (rr' & ri' & Hrun' & Hlr' & Hli' & Hperm'); try assumption.
  assert (rr' = rr) as ->.
  { apply list_eq. intros i. destruct (decide (i < 256)%nat) as [Hi|Hi].
    - destruct (Hperm (Z.of_nat i)) as [H1 _]; [lia|].
      destruct (Hperm' (Z.of_nat i)) as [H1' _]; [lia|].
      rewrite Nat2Z.id in H1, H1'. congruence.
    - rewrite !lookup_ge_None_2; [reflexivity| |]; lia. }
  assert (ri' = ri) as ->.
  { apply list_eq. intros i. destruct (decide (i < 256)%nat) as [Hi|Hi].
    - destruct (Hperm (Z.of_nat i)) as [_ H1]; [lia|].
      destruct (Hperm' (Z.of_nat i)) as [_ H1']; [lia|].
      rewrite Nat2Z.id in H1, H1'. congruence.
    - rewrite !lookup_ge_None_2; [reflexivity| |]; lia. }
  exists rr, ri. repeat split; try assumption; try (apply Hperm; assumption).
  - apply gathered_perm; try assumption. intros n Hn. now apply Hperm.
  - apply gathered_perm; try assumption. intros n Hn. now apply Hperm.
Qed.

Lemma bit_reverse_gathers_witness :
  ∃ rev_real rev_imag,
    bit_reverse (seqZ 0 256) (seqZ 256 256) fresh_buf fresh_buf
    = Some (rev_real, rev_imag) ∧
    bit_reverse (seqZ 0 256) (seqZ 256 256) (seqZ 7 256) (seqZ 9 256)
    = Some (rev_real, rev_imag) ∧
    (∀ n, 0 <= n < 256 →
          rev_real !! Z.to_nat n = seqZ 0 256 !! Z.to_nat (bit_reverse_idx n) ∧
          rev_imag !! Z.to_nat n
          = seqZ 256 256 !! Z.to_nat (bit_reverse_idx n)) ∧
    rev_real ≡ₚ seqZ 0 256 ∧ rev_imag ≡ₚ seqZ 256 256.
Proof. apply bit_reverse_gathers; reflexivity. Defined.

(** ** Further properties of the butterflies *)

Ltac stage_arith Hs :=
  unfold Spec.top, Spec.bot, Spec.group, Spec.j, Spec.half in *;
  destruct (stage_cases _ Hs) as [->|[->|[->|[->|[->|[->|[->| ->]]]]]]];
  repeat match goal with
    | |- context [2 ^ ?s] => let v := eval vm_compute in (2 ^ s) in
                             change (2 ^ s) with v in *
    | H : context [2 ^ ?s] |- _ => let v := eval vm_compute in (2 ^ s) in
                             change (2 ^ s) with v in *
    end.

(** Two butterflies of one stage work on four different elements. *)
Lemma spec_idx_disjoint stage k k' :
  0 <= stage < 8 → 0 <= k < 128 → 0 <= k' < 128 → k ≠ k' →
  Spec.top stage k ≠ Spec.top stage k' ∧
  Spec.top stage k ≠ Spec.bot stage k' ∧
  Spec.bot stage k ≠ Spec.top stage k' ∧
  Spec.bot stage k ≠ Spec.bot stage k'.
Proof.
  intros Hs Hk Hk' Hne. stage_arith Hs; Z.div_mod_to_equations; lia.
Qed.

Lemma owner_spec stage n :
  0 <= stage < 8 → 0 <= n < 256 →
  0 <= owner stage n < 128 ∧
  (n = Spec.top stage (owner stage n) ∨ n = Spec.bot stage (owner stage n)).
Proof.
  intros Hs Hn. unfold owner. stage_arith Hs; Z.div_mod_to_equations; lia.
Qed.

(** X7. In every stage each of the 256 elements belongs to exactly one of
    the 128 butterflies, as its [top] or as its [bot]. *)
Theorem stage_covers_each_element_once (stage n : Z) :
  0 <= stage < 8 → 0 <= n < 256 →
  ∃ k, 0 <= k < 128 ∧
       (n = idx_top (butterfly_idx stage k) ∨
        n = idx_bot (butterfly_idx stage k)) ∧
       ∀ k', 0 <= k' < 128 →
             (n = idx_top (butterfly_idx stage k') ∨
              n = idx_bot (butterfly_idx stage k')) →
             k' = k.
Proof.
  intros Hs Hn. destruct (owner_spec stage n Hs Hn) as [Ho Hn'].
  exists (owner stage n). split; [assumption|].
  rewrite butterfly_idx_spec by assumption. cbn [idx_top idx_bot].
  split; [assumption|].
  intros k' Hk'. rewrite butterfly_idx_spec by assumption.
  cbn [idx_top idx_bot]. intros Hn''.
  destruct (Z.eq_dec k' (owner stage n)) as [|Hne]; [assumption|].
  destruct (spec_idx_disjoint stage k' (owner stage n) Hs Hk' Ho Hne)
    as (H1 & H2 & H3 & H4).
  destruct Hn' as [E|E], Hn'' as [E'|E']; congruence.
Qed.

Lemma stage_covers_each_element_once_witness :
  ∃ k, 0 <= k < 128 ∧
       (100 = idx_top (butterfly_idx 3 k) ∨
        100 = idx_bot (butterfly_idx 3 k)) ∧
       ∀ k', 0 <= k' < 128 →
             (100 = idx_top (butterfly_idx 3 k') ∨
              100 = idx_bot (butterfly_idx 3 k')) →
             k' = k.
Proof. apply stage_covers_each_element_once; lia. Defined.

(** X8. A butterfly changes the two elements [top] and [bot] of each
    buffer and no other; the new [top] and [bot] add up, with 32-bit
    wrap-around, to twice the old [top]. *)
Theorem butterfly_touches_two (stage k : Z) (wr wi : list Z) :
  0 <= stage < 8 → 0 <= k < 128 →
  length wr = 256%nat → length wi = 256%nat →
  ∃ wr' wi',
    butterfly stage k (wr, wi) = Some (wr', wi') ∧
    let t := Z.to_nat (idx_top (butterfly_idx stage k)) in
    let b := Z.to_nat (idx_bot (butterfly_idx stage k)) in
    (∀ n, (n < 256)%nat → n ≠ t → n ≠ b →
          wr' !! n = wr !! n ∧ wi' !! n = wi !! n) ∧
    Fixed.add (wr' !!! t) (wr' !!! b) = Fixed.wrap32 (2 * wr !!! t) ∧
    Fixed.add (wi' !!! t) (wi' !!! b) = Fixed.wrap32 (2 * wi !!! t).
Proof.
  intros Hs Hk Hlr Hli. rewrite butterfly_eq by assumption. cbv zeta.
  destruct (butterfly_idx_bounds stage k Hs Hk) as (Ht & Hb & _ & Htb).
  set (t := Z.to_nat (idx_top (butterfly_idx stage k))).
  set (b := Z.to_nat (idx_bot (butterfly_idx stage k))).
  assert (t ≠ b) as Hne by lia.
  eexists _, _. split; [reflexivity|]. split; [|split].
  - intros n Hn Hnt Hnb.
    rewrite !list_lookup_insert_ne by congruence. split; reflexivity.
  - rewrite list_lookup_total_insert_ne by congruence.
    rewrite !list_lookup_total_insert_eq
      by (rewrite ?length_insert; lia).
    unfold Fixed.add, Fixed.sub. rewrite wrap32_add. f_equal. lia.
  - rewrite list_lookup_total_insert_ne by congruence.
    rewrite !list_lookup_total_insert_eq
      by (rewrite ?length_insert; lia).
    unfold Fixed.add, Fixed.sub. rewrite wrap32_add. f_equal. lia.
Qed.

Lemma butterfly_touches_two_witness :
  ∃ wr' wi',
    butterfly 2 9 (seqZ 0 256, seqZ 256 256) = Some (wr', wi') ∧
    let t := Z.to_nat (idx_top (butterfly_idx 2 9)) in
    let b := Z.to_nat (idx_bot (butterfly_idx 2 9)) in
    (∀ n, (n < 256)%nat → n ≠ t → n ≠ b →
          wr' !! n = seqZ 0 256 !! n ∧ wi' !! n = seqZ 256 256 !! n) ∧
    Fixed.add (wr' !!! t) (wr' !!! b)
    = Fixed.wrap32 (2 * seqZ 0 256 !!! t) ∧
    Fixed.add (wi' !!! t) (wi' !!! b)
    = Fixed.wrap32 (2 * seqZ 256 256 !!! t).
Proof. apply butterfly_touches_two; (lia || reflexivity). Defined.

(** Two-point update of a list. *)
Lemma insert2_commute {A} (l : list A) t b t' b' x y x' y' :
  t ≠ t' → t ≠ b' → b ≠ t' → b ≠ b' →
  <[b' := y']> (<[t' := x']> (<[b := y]> (<[t := x]> l))) =
  <[b := y]> (<[t := x]> (<[b' := y']> (<[t' := x']> l))).
Proof.
  intros H1 H2 H3 H4. apply list_eq. intros n.
  rewrite !list_lookup_insert, !length_insert.
  repeat case_decide; try reflexivity; lia.
Qed.

(** X9. Two different butterflies of one stage commute: executed in
    either order they leave the same buffers. This is what the
    [DEPENDENCE ... inter false] directives of the butterfly loop state. *)
Theorem butterflies_commute (stage k k' : Z) (wr wi : list Z) :
  0 <= stage < 8 → 0 <= k < 128 → 0 <= k' < 128 → k ≠ k' →
  length wr = 256%nat → length wi = 256%nat →
  butterfly stage k (wr, wi) ≫= butterfly stage k' =
  butterfly stage k' (wr, wi) ≫= butterfly stage k.
Proof.
  intros Hs Hk Hk' Hne Hlr Hli.
  destruct (spec_idx_disjoint stage k k' Hs Hk Hk' Hne) as (D1 & D2 & D3 & D4).
  pose proof (spec_idx_bounds stage k Hs Hk) as (Bt & Bb & _).
  pose proof (spec_idx_bounds stage k' Hs Hk') as (Bt' & Bb' & _).
  rewrite (butterfly_eq stage k), (butterfly_eq stage k') by assumption.
  cbv zeta. cbn [mbind option_bind].
  rewrite (butterfly_eq stage k'), (butterfly_eq stage k)
    by (rewrite ?length_insert; assumption).
  cbv zeta. rewrite !butterfly_idx_spec by assumption.
  cbn [idx_top idx_bot tw_idx].
  rewrite !list_lookup_total_insert_ne by lia.
  f_equal. f_equal; apply insert2_commute; lia.
Qed.

Lemma butterflies_commute_witness :
  butterfly 4 3 (seqZ 0 256, seqZ 256 256) ≫= butterfly 4 100 =
  butterfly 4 100 (seqZ 0 256, seqZ 256 256) ≫= butterfly 4 3.
Proof. apply butterflies_commute; (lia || reflexivity). Defined.

(** ** Impulse frames *)

Lemma bit_reverse_fmap (f : Z → Z) (a b o1 o2 a' b' : list Z) :
  bit_reverse a b o1 o2 = Some (a', b') →
  bit_reverse (f <$> a) (f <$> b) (f <$> o1) (f <$> o2)
  = Some (f <$> a', f <$> b').
Proof.
  intros H. unfold bit_reverse in *.
  destruct (for_loop_sim
    (λ (A B : list Z * list Z), B = (f <$> A.1, f <$> A.2))
    (Z.to_nat FFT_SIZE) 0 (bit_reverse_elem a b)
    (bit_reverse_elem (f <$> a) (f <$> b))
    (o1, o2) (f <$> o1, f <$> o2) (a', b'))
    as (w' & Hrun & Hw'); [reflexivity| |exact H|].
  - intros i [A1 A2] B [A1' A2'] -> HA. cbn [fst snd].
    unfold bit_reverse_elem in *. cbv zeta in *.
    rewrite !load_fmap.
    destruct (load a i) as [x|]; [|discriminate].
    cbn [mbind option_bind fmap option_fmap option_map] in *.
    rewrite store_fmap.
    destruct (store A1 (bit_reverse_idx i) x) as [A1''|]; [|discriminate].
    destruct (load b i) as [y|]; [|discriminate].
    cbn [mbind option_bind fmap option_fmap option_map] in *.
    rewrite store_fmap.
    destruct (store A2 (bit_reverse_idx i) y) as [A2''|]; [|discriminate].
    cbn [mbind option_bind fmap option_fmap option_map] in *.
    injection HA as <- <-. eexists. split; reflexivity.
  - rewrite Hrun. now rewrite Hw'.
Qed.

Lemma impulse_frame_length c : length (impulse_frame c) = 256%nat.
Proof. unfold impulse_frame. now rewrite length_fmap, length_seqZ. Qed.

Lemma impulse_frame_real c :
  word_real <$> impulse_frame c = Coef.conc c (1 :: replicate 255 0).
Proof.
  unfold impulse_frame. rewrite <- list_fmap_compose.
  change (1 :: replicate 255 0)
    with ((λ n, if n =? 0 then 1 else 0) <$> seqZ 0 FFT_SIZE).
  unfold Coef.conc. rewrite <- list_fmap_compose.
  apply list_fmap_ext. intros _ n _. unfold compose, word_real, sample_word.
  cbn [data]. rewrite unpack_pack_wrap. cbn [fst]. unfold Coef.scale.
  destruct (n =? 0); [now rewrite Z.mul_1_l|reflexivity].
Qed.

Lemma impulse_frame_imag c :
  word_imag <$> impulse_frame c = Coef.conc c (replicate 256 0).
Proof.
  unfold impulse_frame. rewrite <- list_fmap_compose.
  change (replicate 256 0) with ((λ _ : Z, 0) <$> seqZ 0 FFT_SIZE).
  unfold Coef.conc. rewrite <- list_fmap_compose.
  apply list_fmap_ext. intros _ n _. unfold compose, word_imag, sample_word.
  cbn [data]. rewrite unpack_pack_wrap. reflexivity.
Qed.

Lemma coef_impulse :
  bit_reverse (1 :: replicate 255 0) (replicate 256 0) fresh_buf fresh_buf
  ≫= Coef.stage_loop
  = Some (replicate 256 1, replicate 256 0).
Proof. vm_compute. reflexivity. Qed.

(** X10. For every Q16.16 value [c], the transform of the impulse frame
    (sample [(c, 0)] first, then 255 samples [(0, 0)]) is flat: every one
    of the 256 output bins is exactly [(c, 0)]. *)
Theorem fft_impulse_frame (c : fixed_t) :
  Fixed.in_range c →
  ∃ words,
    fft (impulse_frame c) [] = Some ([], words) ∧
    word_real <$> words = replicate 256 c ∧
    word_imag <$> words = replicate 256 0.
Proof.
  intros Hc.
  destruct (fft_eq (impulse_frame c) [] [] (impulse_frame_length c))
    as (rr & ri & wr & wi & Hrev & Hst & Hfft).
  rewrite impulse_frame_real, impulse_frame_imag in Hrev.
  pose proof coef_impulse as Hco.
  destruct (bit_reverse (1 :: replicate 255 0) (replicate 256 0)
              fresh_buf fresh_buf) as [[Ar Ai]|] eqn:Hab; [|discriminate].
  cbn [mbind option_bind] in Hco.
  apply (bit_reverse_fmap (Coef.scale c)) in Hab.
  change (Coef.scale c <$> fresh_buf) with fresh_buf in Hab.
  fold (Coef.conc c (1 :: replicate 255 0)) in Hab.
  fold (Coef.conc c (replicate 256 0)) in Hab.
  fold (Coef.conc c Ar) in Hab. fold (Coef.conc c Ai) in Hab.
  assert (rr = Coef.conc c Ar ∧ ri = Coef.conc c Ai) as [-> ->]
    by (split; congruence).
  rewrite (coef_stage_loop_sound c _ _ _ _ Hco) in Hst.
  assert (wr = Coef.conc c (replicate 256 1) ∧
          wi = Coef.conc c (replicate 256 0)) as [-> ->]
    by (split; congruence).
  rewrite app_nil_r, app_nil_l in Hfft.
  eexists. split; [exact Hfft|].
  rewrite output_frame_real, output_frame_imag
    by (apply conc_in_range || apply length_fmap).
  unfold Coef.conc. rewrite !fmap_replicate. unfold Coef.scale.
  rewrite Z.mul_1_l, wrap32_id by assumption. split; reflexivity.
Qed.

Lemma fft_impulse_frame_witness :
  ∃ words,
    fft (impulse_frame 65536) [] = Some ([], words) ∧
    word_real <$> words = replicate 256 65536 ∧
    word_imag <$> words = replicate 256 0.
Proof. apply fft_impulse_frame. unfold Fixed.in_range. lia. Defined.

(** ** The test bench's TLAST check *)

Lemma tb_check_tlast_output_frame (real_buf imag_buf : list Z) :
  tb_check_tlast (output_frame real_buf imag_buf) = Some ([], 0).
Proof.
  unfold tb_check_tlast.
  destruct (for_loop_inv
    (λ i '(s, e),
       s = drop (Z.to_nat i) (output_frame real_buf imag_buf) ∧ e = 0)
    (Z.to_nat FFT_SIZE) 0 tb_check_word (output_frame real_buf imag_buf, 0))
    as ([s e] & Hrun & Hs & He).
  - split; reflexivity.
  - intros i [s e] Hi [-> ->].
    change (Z.of_nat (Z.to_nat FFT_SIZE)) with 256 in Hi.
    rewrite (drop_S _ _ _ (output_frame_lookup real_buf imag_buf i
                              ltac:(lia))).
    unfold tb_check_word. cbn [stream_read mbind option_bind].
    eexists. split; [reflexivity|]. cbv beta iota.
    replace (Z.to_nat (i + 1)) with (S (Z.to_nat i)) by lia.
    split; [reflexivity|]. unfold output_word. cbn [last].
    destruct (Z.eqb_spec i (FFT_SIZE - 1)); reflexivity.
  - refine (eq_trans Hrun _). subst.
    change (Z.to_nat (0 + Z.of_nat (Z.to_nat FFT_SIZE))) with 256%nat.
    now rewrite drop_ge by (rewrite output_frame_length; lia).
Qed.

(** X11. Whatever frame of 256 words the transform is run on, well
    framed or not, the test bench's check of the results finds [last] set
    on the 256th word and clear on the others: [tlast_error] stays 0, and
    the check empties the output stream. *)
Theorem tb_tlast_check_passes (frame : stream) :
  length frame = 256%nat →
  fft frame [] ≫= (λ '(_, out_stream), tb_check_tlast out_stream)
  = Some ([], 0).
Proof.
  intros Hf.
  destruct (fft_eq frame [] [] Hf) as (rr & ri & wr & wi & _ & _ & Hfft).
  rewrite app_nil_r, app_nil_l in Hfft. rewrite Hfft.
  cbn [mbind option_bind]. apply tb_check_tlast_output_frame.
Qed.

Lemma tb_tlast_check_passes_witness :
  fft misframed_frame [] ≫= (λ '(_, out_stream), tb_check_tlast out_stream)
  = Some ([], 0).
Proof. apply tb_tlast_check_passes. reflexivity. Defined.

(** ** The core and its output buffers *)

Lemma stage_loop_in_range (wr wi : list Z) :
  length wr = 256%nat → length wi = 256%nat →
  Forall Fixed.in_range wr → Forall Fixed.in_range wi →
  ∃ wr' wi', stage_loop (wr, wi) = Some (wr', wi') ∧
             length wr' = 256%nat ∧ length wi' = 256%nat ∧
             Forall Fixed.in_range wr' ∧ Forall Fixed.in_range wi'.
Proof.
  intros Hlr Hli Hr Hi. unfold stage_loop.
  set (P := λ (_ : Z) (w : list Z * list Z),
              length w.1 = 256%nat ∧ length w.2 = 256%nat ∧
              Forall Fixed.in_range w.1 ∧ Forall Fixed.in_range w.2).
  destruct (for_loop_inv P (Z.to_nat LOG2_FFT_SIZE) 0
    (λ stage w, for_loop (Z.to_nat (FFT_SIZE / 2)) 0 (butterfly stage) w)
    (wr, wi)) as ([wr' wi'] & Hrun & HP).
  - repeat split; assumption.
  - intros stage w Hs HP.
    change (Z.of_nat (Z.to_nat LOG2_FFT_SIZE)) with 8 in Hs.
    destruct (for_loop_inv P (Z.to_nat (FFT_SIZE / 2)) 0 (butterfly stage) w)
      as (w' & Hrun & HP'); [assumption| |eauto].
    intros k [w1 w2] Hk (H1 & H2 & H3 & H4).
    change (Z.of_nat (Z.to_nat (FFT_SIZE / 2))) with 128 in Hk.
    cbn [fst snd] in *.
    destruct (butterfly_total stage k w1 w2) as (w1' & w2' & E & L1 & L2);
      [lia|lia|assumption|assumption|].
    destruct (butterfly_in_range stage k w1 w2 w1' w2') as [R1 R2];
      [lia|lia|assumption..|].
    exists (w1', w2'). repeat split; assumption.
  - destruct HP as (H1 & H2 & H3 & H4). exists wr', wi'.
    repeat split; assumption.
Qed.

(** X12. The core reads its two input buffers only: the previous
    contents of the output buffers (and of the working buffers) do not
    reach the result, which is again a pair of 256 valid Q16.16 values. *)
Theorem fft_stages_output_buffers
    (in_real in_imag out_real out_imag out_real' out_imag' : list Z) :
  length in_real = 256%nat → length in_imag = 256%nat →
  length out_real = 256%nat → length out_imag = 256%nat →
  length out_real' = 256%nat → length out_imag' = 256%nat →
  Forall Fixed.in_range in_real → Forall Fixed.in_range in_imag →
  ∃ wr wi,
    fft_stages in_real in_imag out_real out_imag = Some (wr, wi) ∧
    fft_stages in_real in_imag out_real' out_imag' = Some (wr, wi) ∧
    length wr = 256%nat ∧ length wi = 256%nat ∧
    Forall Fixed.in_range wr ∧ Forall Fixed.in_range wi.
Proof.
  intros Hir Hii Hor Hoi Hor' Hoi' Hr Hi.
  rewrite !fft_stages_eq by assumption.
  destruct (stage_loop_in_range in_real in_imag)
    as (wr & wi & -> & H); try assumption.
  exists wr, wi. split; [reflexivity|]. split; [reflexivity|]. exact H.
Qed.

Lemma fft_stages_output_buffers_witness :
  ∃ wr wi,
    fft_stages (seqZ 0 256) (seqZ 256 256) fresh_buf fresh_buf
    = Some (wr, wi) ∧
    fft_stages (seqZ 0 256) (seqZ 256 256) (seqZ 1 256) (seqZ 2 256)
    = Some (wr, wi) ∧
    length wr = 256%nat ∧ length wi = 256%nat ∧
    Forall Fixed.in_range wr ∧ Forall Fixed.in_range wi.
Proof.
  apply fft_stages_output_buffers;
    try reflexivity; apply Forall_in_range; reflexivity.
Defined.

(** ** No overflow on Bound.bounded input *)

(** A loop on descriptions that succeeds is followed by two loops on the
    described states that agree with each other. *)
Lemma for_loop_sim2 {A B : Type} (R : A → B → Prop) n lo
    (body : Z → A → option A) (f g : Z → B → option B) a b a' :
  R a b →
  (∀ i a b a', R a b → body i a = Some a' →
               ∃ b', f i b = Some b' ∧ g i b = Some b' ∧ R a' b') →
  for_loop n lo body a = Some a' →
  ∃ b', for_loop n lo f b = Some b' ∧ for_loop n lo g b = Some b' ∧ R a' b'.
Proof.
  intros HR Hstep. revert lo a b HR. induction n as [|n IH]; intros lo a b HR H.
  - simpl in H. injection H as <-. now exists b.
  - simpl in H. destruct (body lo a) as [a1|] eqn:E1; [|discriminate].
    simpl in H. destruct (Hstep lo a b a1 HR E1) as (b1 & E2 & E3 & HR1).
    destruct (IH _ _ _ HR1 H) as (b' & F & G & HR').
    exists b'. simpl. rewrite E2, E3. repeat split; assumption.
Qed.

Lemma load_Forall2 (P : Z → Z → Prop) (bs xs : list Z) i b :
  Forall2 P bs xs → load bs i = Some b →
  ∃ x, load xs i = Some x ∧ P b x.
Proof.
  intros HF. unfold load. destruct (0 <=? i); [|discriminate].
  intros Hb. destruct (Forall2_lookup_l _ _ _ _ _ HF Hb) as (x & Hx & HP).
  eauto.
Qed.

Lemma store_Forall2 (P : Z → Z → Prop) (bs xs bs' : list Z) i b x :
  Forall2 P bs xs → store bs i b = Some bs' → P b x →
  ∃ xs', store xs i x = Some xs' ∧ Forall2 P bs' xs'.
Proof.
  intros HF. unfold store. rewrite <- (Forall2_length _ _ _ HF).
  destruct ((0 <=? i) && (i <? Z.of_nat (length bs))); [|discriminate].
  intros [= <-] HP. eexists. split; [reflexivity|].
  now apply Forall2_insert.
Qed.

Lemma exact_mul_bound b t x :
  Bound.within b x → Bound.within (Bound.mul b t) (Exact.mul x t).
Proof.
  unfold Bound.within, Bound.mul, Exact.mul. intros Hx.
  rewrite Z.shiftr_div_pow2 by lia.
  assert (Z.abs (x * t) <= b * Z.abs t) as Hp.
  { rewrite Z.abs_mul. apply Z.mul_le_mono_nonneg_r; lia. }
  generalize dependent (x * t). intros p Hp.
  generalize dependent (b * Z.abs t). intros q Hq.
  change (2 ^ 16) with 65536. Z.div_mod_to_equations. lia.
Qed.

Lemma wrap32_within b x : Bound.within b x → b < 2 ^ 31 → Fixed.wrap32 x = x.
Proof.
  unfold Bound.within. intros Hx Hb. apply wrap32_id.
  unfold Fixed.in_range. lia.
Qed.

Lemma bound_butterfly_sound stage k B w B' :
  Bound.bounded B w → Bound.butterfly stage k B = Some B' →
  ∃ w', butterfly stage k w = Some w' ∧
        Exact.butterfly stage k w = Some w' ∧ Bound.bounded B' w'.
Proof.
  destruct B as [Br Bi], w as [wr wi]. intros [Hr Hi]. cbn [fst snd] in *.
  unfold Bound.butterfly, butterfly, Exact.butterfly. cbv zeta.
  generalize (butterfly_idx stage k). intros ix.
  destruct (load TW_REAL (tw_idx ix)) as [tw_r|]; [|discriminate].
  destruct (load TW_IMAG (tw_idx ix)) as [tw_i|]; [|discriminate].
  cbn [mbind option_bind].
  destruct (load Br (idx_top ix)) as [Ar|] eqn:EAr; [|discriminate].
  destruct (load Bi (idx_top ix)) as [Ai|] eqn:EAi; [|discriminate].
  destruct (load Br (idx_bot ix)) as [Bbr|] eqn:EBr; [|discriminate].
  destruct (load Bi (idx_bot ix)) as [Bbi|] eqn:EBi; [|discriminate].
  cbn [mbind option_bind].
  destruct (load_Forall2 _ _ _ _ _ Hr EAr) as (ar & -> & Har).
  destruct (load_Forall2 _ _ _ _ _ Hi EAi) as (ai & -> & Hai).
  destruct (load_Forall2 _ _ _ _ _ Hr EBr) as (br & -> & Hbr).
  destruct (load_Forall2 _ _ _ _ _ Hi EBi) as (bi & -> & Hbi).
  cbn [mbind option_bind].
  pose proof (exact_mul_bound _ tw_r _ Hbr) as Mrr.
  pose proof (exact_mul_bound _ tw_i _ Hbi) as Mii.
  pose proof (exact_mul_bound _ tw_i _ Hbr) as Mri.
  pose proof (exact_mul_bound _ tw_r _ Hbi) as Mir.
  set (brr := Bound.mul Bbr tw_r) in *. set (bii := Bound.mul Bbi tw_i) in *.
  set (bri := Bound.mul Bbr tw_i) in *. set (bir := Bound.mul Bbi tw_r) in *.
  destruct (Z.ltb_spec (Ar + (brr + bii)) (2 ^ 31)) as [Lr|]; [|discriminate].
  destruct (Z.ltb_spec (Ai + (bri + bir)) (2 ^ 31)) as [Li|]; [|discriminate].
  cbn [andb].
  unfold Bound.within in Har, Hai, Mrr, Mii, Mri, Mir.
  assert (Fixed.mul br tw_r = Exact.mul br tw_r) as ->
    by (apply (wrap32_within brr); [exact Mrr|lia]).
  assert (Fixed.mul bi tw_i = Exact.mul bi tw_i) as ->
    by (apply (wrap32_within bii); [exact Mii|lia]).
  assert (Fixed.mul br tw_i = Exact.mul br tw_i) as ->
    by (apply (wrap32_within bri); [exact Mri|lia]).
  assert (Fixed.mul bi tw_r = Exact.mul bi tw_r) as ->
    by (apply (wrap32_within bir); [exact Mir|lia]).
  set (mrr := Exact.mul br tw_r) in *. set (mii := Exact.mul bi tw_i) in *.
  set (mri := Exact.mul br tw_i) in *. set (mir := Exact.mul bi tw_r) in *.
  assert (Fixed.sub mrr mii = mrr - mii) as ->
    by (apply (wrap32_within (brr + bii)); unfold Bound.within; lia).
  assert (Fixed.add mri mir = mri + mir) as ->
    by (apply (wrap32_within (bri + bir)); unfold Bound.within; lia).
  assert (Bound.within (Ar + (brr + bii)) (ar + (mrr - mii))) as Wtr
    by (unfold Bound.within; lia).
  assert (Bound.within (Ai + (bri + bir)) (ai + (mri + mir))) as Wti
    by (unfold Bound.within; lia).
  assert (Bound.within (Ar + (brr + bii)) (ar - (mrr - mii))) as Wbr
    by (unfold Bound.within; lia).
  assert (Bound.within (Ai + (bri + bir)) (ai - (mri + mir))) as Wbi
    by (unfold Bound.within; lia).
  rewrite (wrap32_within _ _ Wtr Lr : Fixed.add ar _ = _).
  rewrite (wrap32_within _ _ Wti Li : Fixed.add ai _ = _).
  rewrite (wrap32_within _ _ Wbr Lr : Fixed.sub ar _ = _).
  rewrite (wrap32_within _ _ Wbi Li : Fixed.sub ai _ = _).
  destruct (store Br (idx_top ix) _) as [Br1|] eqn:S1; [|discriminate].
  destruct (store_Forall2 _ _ _ _ _ _ _ Hr S1 Wtr) as (wr1 & -> & Hr1).
  cbn [mbind option_bind].
  destruct (store Bi (idx_top ix) _) as [Bi1|] eqn:S2; [|discriminate].
  destruct (store_Forall2 _ _ _ _ _ _ _ Hi S2 Wti) as (wi1 & -> & Hi1).
  cbn [mbind option_bind].
  destruct (store Br1 (idx_bot ix) _) as [Br2|] eqn:S3; [|discriminate].
  destruct (store_Forall2 _ _ _ _ _ _ _ Hr1 S3 Wbr) as (wr2 & -> & Hr2).
  cbn [mbind option_bind].
  destruct (store Bi1 (idx_bot ix) _) as [Bi2|] eqn:S4; [|discriminate].
  destruct (store_Forall2 _ _ _ _ _ _ _ Hi1 S4 Wbi) as (wi2 & -> & Hi2).
  cbn [mbind option_bind].
  intros [= <-]. eexists. repeat split; assumption.
Qed.

Lemma bound_stage_loop_sound B w B' :
  Bound.bounded B w → Bound.stage_loop B = Some B' →
  ∃ w', stage_loop w = Some w' ∧ Exact.stage_loop w = Some w' ∧ Bound.bounded B' w'.
Proof.
  intros HB H. unfold Bound.stage_loop in H. unfold stage_loop, Exact.stage_loop.
  eapply (for_loop_sim2 Bound.bounded); [exact HB| |exact H].
  intros stage B0 w0 B1 HB0 H0.
  eapply (for_loop_sim2 Bound.bounded); [exact HB0| |exact H0].
  intros k B2 w2 B3 HB2 H2. now apply bound_butterfly_sound with B2.
Qed.

Lemma bound_stage_loop_32 :
  is_Some (Bound.stage_loop (replicate 256 (2 ^ 21), replicate 256 (2 ^ 21))).
Proof. vm_compute. eauto. Qed.

Lemma Forall2_replicate_within b (xs : list Z) :
  Forall (λ x, Z.abs x <= b) xs →
  Forall2 Bound.within (replicate (length xs) b) xs.
Proof.
  induction 1 as [|x xs Hx _ IH]; cbn [length replicate]; constructor;
    assumption.
Qed.

Lemma Forall_abs_le b (l : list Z) :
  forallb (λ x, Z.abs x <=? b) l = true → Forall (λ x, Z.abs x <= b) l.
Proof.
  induction l as [|x l IH]; simpl; intros H; constructor.
  - apply andb_prop in H as [H _]. lia.
  - apply IH. now apply andb_prop in H as [_ H].
Qed.

(** X13. When every sample of the two input buffers has magnitude at most
    32.0 (raw value [2^21]), no addition, subtraction or multiplication of
    the eight stages overflows: the core computes what the same butterflies
    compute over unbounded integers. *)
Theorem fft_stages_no_overflow (in_real in_imag out_real out_imag : list Z) :
  length in_real = 256%nat → length in_imag = 256%nat →
  length out_real = 256%nat → length out_imag = 256%nat →
  Forall (λ x, Z.abs x <= 2 ^ 21) in_real →
  Forall (λ x, Z.abs x <= 2 ^ 21) in_imag →
  ∃ wr wi,
    fft_stages in_real in_imag out_real out_imag = Some (wr, wi) ∧
    Exact.stage_loop (in_real, in_imag) = Some (wr, wi).
Proof.
  intros Hir Hii Hor Hoi Hr Hi. rewrite fft_stages_eq by assumption.
  destruct bound_stage_loop_32 as [B' HB'].
  destruct (bound_stage_loop_sound
              (replicate 256 (2 ^ 21), replicate 256 (2 ^ 21))
              (in_real, in_imag) B')
    as ([wr wi] & H1 & H2 & _); [|exact HB'|].
  - split; cbn [fst snd].
    + rewrite <- Hir. now apply Forall2_replicate_within.
    + rewrite <- Hii. now apply Forall2_replicate_within.
  - exists wr, wi. split; assumption.
Qed.

Lemma fft_stages_no_overflow_witness :
  ∃ wr wi,
    fft_stages (seqZ 0 256) (replicate 256 (- 2 ^ 21)) fresh_buf fresh_buf
    = Some (wr, wi) ∧
    Exact.stage_loop (seqZ 0 256, replicate 256 (- 2 ^ 21)) = Some (wr, wi).
Proof.
  apply fft_stages_no_overflow; try reflexivity;
    apply Forall_abs_le; reflexivity.
Defined.

(** ** The first output bin *)

Lemma sum_app l k : Sums.sum (l ++ k) = Sums.sum l + Sums.sum k.
Proof. induction l as [|x l IH]; simpl; [reflexivity|]. rewrite IH. lia. Qed.

Lemma sum_perm l k : l ≡ₚ k → Sums.sum l = Sums.sum k.
Proof.
  induction 1 as [|x l k _ IH|x y l|l k m _ IH1 _ IH2]; simpl; lia.
Qed.

Lemma sum_range_split (x : list Z) lo m hi :
  (lo <= m)%nat → (m <= hi)%nat →
  Sums.sum (take (hi - lo) (drop lo x)) =
  Sums.sum (take (m - lo) (drop lo x)) + Sums.sum (take (hi - m) (drop m x)).
Proof.
  intros H1 H2. rewrite <- sum_app. f_equal.
  replace (hi - lo)%nat with ((m - lo) + (hi - m))%nat by lia.
  rewrite <- take_take_drop. f_equal. rewrite drop_drop. f_equal. f_equal. lia.
Qed.

Lemma join_sound x a b u v :
  Sums.describes x a u → Sums.describes x b v →
  Sums.describes x (Sums.join a b) (Fixed.wrap32 (u + v)).
Proof.
  destruct a as [lo m|], b as [m' hi|]; simpl; try exact (λ _ _, I).
  destruct (Nat.eqb_spec m m') as [<-|]; simpl; [|exact (λ _ _, I)].
  destruct (Nat.leb_spec lo m); simpl; [|exact (λ _ _, I)].
  destruct (Nat.leb_spec m hi); simpl; [|exact (λ _ _, I)].
  intros -> ->. rewrite wrap32_add. f_equal. symmetry.
  now apply sum_range_split.
Qed.

Lemma describes_in_range x a v :
  Sums.describes x a v → a ≠ Sums.Top → Fixed.in_range v.
Proof.
  destruct a; [|congruence]. simpl. intros -> _. apply wrap32_range.
Qed.

Lemma aload_Forall2 (P : Sums.aval → Z → Prop) (A : list Sums.aval) (w : list Z) i a :
  Forall2 P A w → Sums.aload A i = Some a → ∃ x, load w i = Some x ∧ P a x.
Proof.
  intros HF. unfold Sums.aload, load. destruct (0 <=? i); [|discriminate].
  intros Ha. destruct (Forall2_lookup_l _ _ _ _ _ HF Ha) as (x & Hx & HP).
  eauto.
Qed.

Lemma astore_Forall2 (P : Sums.aval → Z → Prop) (A A' : list Sums.aval) (w : list Z)
    i a x :
  Forall2 P A w → Sums.astore A i a = Some A' → P a x →
  ∃ w', store w i x = Some w' ∧ Forall2 P A' w'.
Proof.
  intros HF. unfold Sums.astore, store. rewrite <- (Forall2_length _ _ _ HF).
  destruct ((0 <=? i) && (i <? Z.of_nat (length A))); [|discriminate].
  intros [= <-] HP. eexists. split; [reflexivity|].
  now apply Forall2_insert.
Qed.

(** With the twiddle factor [1.0] the butterfly adds [bot] to [top]. *)
Lemma unit_twiddle_top x a b u v w :
  Sums.describes x a u → Sums.describes x b v →
  Sums.describes x (Sums.join a b)
    (Fixed.add u (Fixed.sub (Fixed.mul v (2 ^ 16)) (Fixed.mul w 0))).
Proof.
  intros Hu Hv. destruct (Sums.join a b) eqn:Ej; [|exact I]. rewrite <- Ej.
  assert (b ≠ Sums.Top) as Hb.
  { intros ->. destruct a; discriminate. }
  rewrite mul_one_r, mul_0_r by (eapply describes_in_range; eassumption).
  unfold Fixed.sub. rewrite Z.sub_0_r.
  rewrite (wrap32_id v) by (eapply describes_in_range; eassumption).
  now apply join_sound.
Qed.

Lemma unit_twiddle_top_imag x a b u v w :
  Sums.describes x a u → Sums.describes x b v →
  Sums.describes x (Sums.join a b)
    (Fixed.add u (Fixed.add (Fixed.mul w 0) (Fixed.mul v (2 ^ 16)))).
Proof.
  intros Hu Hv. destruct (Sums.join a b) eqn:Ej; [|exact I]. rewrite <- Ej.
  assert (b ≠ Sums.Top) as Hb.
  { intros ->. destruct a; discriminate. }
  rewrite mul_one_r, mul_0_r by (eapply describes_in_range; eassumption).
  unfold Fixed.add at 2. rewrite Z.add_0_l.
  rewrite (wrap32_id v) by (eapply describes_in_range; eassumption).
  now apply join_sound.
Qed.

Lemma sums_butterfly_sound xr xi stage k A w A' :
  Sums.described xr xi A w → Sums.butterfly stage k A = Some A' →
  ∃ w', butterfly stage k w = Some w' ∧ Sums.described xr xi A' w'.
Proof.
  destruct A as [Ar Ai], w as [wr wi]. intros [Hr Hi]. cbn [fst snd] in *.
  unfold Sums.butterfly, butterfly. cbv zeta.
  generalize (butterfly_idx stage k). intros ix.
  destruct (load TW_REAL (tw_idx ix)) as [tw_r|]; [|discriminate].
  destruct (load TW_IMAG (tw_idx ix)) as [tw_i|]; [|discriminate].
  cbn [mbind option_bind].
  destruct (Sums.aload Ar (idx_top ix)) as [aar|] eqn:E1; [|discriminate].
  destruct (Sums.aload Ai (idx_top ix)) as [aai|] eqn:E2; [|discriminate].
  destruct (Sums.aload Ar (idx_bot ix)) as [abr|] eqn:E3; [|discriminate].
  destruct (Sums.aload Ai (idx_bot ix)) as [abi|] eqn:E4; [|discriminate].
  cbn [mbind option_bind].
  destruct (aload_Forall2 _ _ _ _ _ Hr E1) as (ar & -> & Har).
  destruct (aload_Forall2 _ _ _ _ _ Hi E2) as (ai & -> & Hai).
  destruct (aload_Forall2 _ _ _ _ _ Hr E3) as (br & -> & Hbr).
  destruct (aload_Forall2 _ _ _ _ _ Hi E4) as (bi & -> & Hbi).
  cbn [mbind option_bind].
  set (tr := Fixed.sub (Fixed.mul br tw_r) (Fixed.mul bi tw_i)).
  set (ti := Fixed.add (Fixed.mul br tw_i) (Fixed.mul bi tw_r)).
  assert (Sums.describes xr
            (if (tw_r =? 2 ^ 16) && (tw_i =? 0) then Sums.join aar abr else Sums.Top)
            (Fixed.add ar tr)) as Dr.
  { destruct (Z.eqb_spec tw_r (2 ^ 16)) as [->|]; [|exact I].
    destruct (Z.eqb_spec tw_i 0) as [->|]; [|exact I].
    now apply unit_twiddle_top. }
  assert (Sums.describes xi
            (if (tw_r =? 2 ^ 16) && (tw_i =? 0) then Sums.join aai abi else Sums.Top)
            (Fixed.add ai ti)) as Di.
  { destruct (Z.eqb_spec tw_r (2 ^ 16)) as [->|]; [|exact I].
    destruct (Z.eqb_spec tw_i 0) as [->|]; [|exact I].
    now apply unit_twiddle_top_imag. }
  destruct (Sums.astore Ar (idx_top ix) _) as [Ar1|] eqn:S1; [|discriminate].
  destruct (astore_Forall2 _ _ _ _ _ _ _ Hr S1 Dr) as (wr1 & -> & Hr1).
  cbn [mbind option_bind].
  destruct (Sums.astore Ai (idx_top ix) _) as [Ai1|] eqn:S2; [|discriminate].
  destruct (astore_Forall2 _ _ _ _ _ _ _ Hi S2 Di) as (wi1 & -> & Hi1).
  cbn [mbind option_bind].
  destruct (Sums.astore Ar1 (idx_bot ix) Sums.Top) as [Ar2|] eqn:S3; [|discriminate].
  destruct (astore_Forall2 (Sums.describes xr) _ _ _ _ _ (Fixed.sub ar tr) Hr1 S3 I)
    as (wr2 & -> & Hr2).
  cbn [mbind option_bind].
  destruct (Sums.astore Ai1 (idx_bot ix) Sums.Top) as [Ai2|] eqn:S4; [|discriminate].
  destruct (astore_Forall2 (Sums.describes xi) _ _ _ _ _ (Fixed.sub ai ti) Hi1 S4 I)
    as (wi2 & -> & Hi2).
  cbn [mbind option_bind].
  intros [= <-]. eexists. split; [reflexivity|]. split; assumption.
Qed.

Lemma sums_stage_loop_sound xr xi A w A' :
  Sums.described xr xi A w → Sums.stage_loop A = Some A' →
  ∃ w', stage_loop w = Some w' ∧ Sums.described xr xi A' w'.
Proof.
  intros HA H. unfold Sums.stage_loop in H. unfold stage_loop.
  eapply (for_loop_sim (Sums.described xr xi)); [exact HA| |exact H].
  intros stage A0 w0 A1 HA0 H0.
  eapply (for_loop_sim (Sums.described xr xi)); [exact HA0| |exact H0].
  intros k A2 w2 A3 HA2 H2. now apply sums_butterfly_sound with A2.
Qed.

Lemma sums_bin0 :
  Sums.stage_loop (Sums.singles, Sums.singles) ≫= (λ A, Some (A.1 !! 0%nat, A.2 !! 0%nat))
  = Some (Some (Sums.Range 0 256), Some (Sums.Range 0 256)).
Proof. vm_compute. reflexivity. Qed.

Lemma singles_describe (x : list Z) :
  length x = 256%nat → Forall Fixed.in_range x →
  Forall2 (Sums.describes x) Sums.singles x.
Proof.
  intros Hl Hx. apply Forall2_same_length_lookup_2.
  - unfold Sums.singles. now rewrite length_fmap, length_seq.
  - intros i a v Ha Hv. unfold Sums.singles in Ha.
    rewrite list_lookup_fmap in Ha.
    destruct (seq 0 256 !! i) as [n|] eqn:En; [|discriminate].
    apply lookup_seq in En as [-> _]. injection Ha as <-. simpl.
    replace (S i - i)%nat with 1%nat by lia.
    rewrite (drop_S _ _ _ Hv). cbn [take Sums.sum foldr].
    rewrite Z.add_0_r. symmetry. apply wrap32_id.
    eapply Forall_lookup_1; eassumption.
Qed.

(** After the eight stages element 0 of each buffer holds the wrapped Sums.sum
    of the 256 elements the buffer started with. *)
Lemma stage_loop_bin0 (wr wi : list Z) :
  length wr = 256%nat → length wi = 256%nat →
  Forall Fixed.in_range wr → Forall Fixed.in_range wi →
  ∃ wr' wi', stage_loop (wr, wi) = Some (wr', wi') ∧
             wr' !! 0%nat = Some (Fixed.wrap32 (Sums.sum wr)) ∧
             wi' !! 0%nat = Some (Fixed.wrap32 (Sums.sum wi)).
Proof.
  intros Hlr Hli Hr Hi. pose proof sums_bin0 as Hb.
  destruct (Sums.stage_loop (Sums.singles, Sums.singles)) as [[A1 A2]|] eqn:HA;
    [|discriminate].
  cbn [mbind option_bind fst snd] in Hb. injection Hb as H1 H2.
  destruct (sums_stage_loop_sound wr wi (Sums.singles, Sums.singles) (wr, wi) (A1, A2))
    as ([wr' wi'] & Hrun & Dr & Di); [|exact HA|].
  - split; now apply singles_describe.
  - cbn [fst snd] in *. exists wr', wi'. split; [assumption|].
    destruct (Forall2_lookup_l _ _ _ _ _ Dr H1) as (v & -> & Hv).
    destruct (Forall2_lookup_l _ _ _ _ _ Di H2) as (u & -> & Hu).
    unfold Sums.describes in Hv, Hu. rewrite Nat.sub_0_r, drop_0 in Hv, Hu.
    rewrite take_ge in Hv by lia. rewrite take_ge in Hu by lia.
    rewrite Hv, Hu. split; reflexivity.
Qed.

Lemma word_real_in_range (frame : stream) :
  Forall Fixed.in_range (word_real <$> frame).
Proof.
  apply Forall_fmap, Forall_forall. intros val _. apply wrap32_range.
Qed.

Lemma word_imag_in_range (frame : stream) :
  Forall Fixed.in_range (word_imag <$> frame).
Proof.
  apply Forall_fmap, Forall_forall. intros val _. apply wrap32_range.
Qed.

Lemma word_output_word re im i :
  word_real (output_word re im i) = Fixed.wrap32 re ∧
  word_imag (output_word re im i) = Fixed.wrap32 im.
Proof.
  unfold word_real, word_imag, output_word. cbn [data].
  now rewrite unpack_pack_wrap.
Qed.

(** X14. For every frame of 256 words, the first output word carries the
    sum of the 256 input real parts in its real half and the sum of the
    256 input imaginary parts in its imaginary half, each wrapped to 32
    bits; no rounding enters bin 0. *)
Theorem fft_bin0_is_sum (frame : stream) :
  length frame = 256%nat →
  ∃ words val,
    fft frame [] = Some ([], words) ∧
    words !! 0%nat = Some val ∧
    word_real val = Fixed.wrap32 (Sums.sum (word_real <$> frame)) ∧
    word_imag val = Fixed.wrap32 (Sums.sum (word_imag <$> frame)).
Proof.
  intros Hf.
  destruct (fft_eq frame [] [] Hf) as (rr & ri & wr & wi & Hrev & Hst & Hfft).
  rewrite app_nil_r, app_nil_l in Hfft.
  destruct (bit_reverse_lookup (word_real <$> frame) (word_imag <$> frame)
              fresh_buf fresh_buf)
    as (rr' & ri' & Hrun & Hlr & Hli & Hperm);
    try (rewrite length_fmap; assumption); try reflexivity.
  assert (rr' = rr ∧ ri' = ri) as [-> ->] by (split; congruence).
  assert (rr ≡ₚ word_real <$> frame) as Pr.
  { apply gathered_perm; [now rewrite length_fmap|assumption|].
    intros n Hn. now apply Hperm. }
  assert (ri ≡ₚ word_imag <$> frame) as Pi.
  { apply gathered_perm; [now rewrite length_fmap|assumption|].
    intros n Hn. now apply Hperm. }
  destruct (stage_loop_bin0 rr ri) as (wr' & wi' & Hst' & B0r & B0i);
    try assumption.
  { rewrite Pr. apply word_real_in_range. }
  { rewrite Pi. apply word_imag_in_range. }
  rewrite Hst in Hst'. injection Hst' as <- <-.
  exists (output_frame wr wi), (output_word (wr !!! 0%nat) (wi !!! 0%nat) 0).
  split; [assumption|].
  split; [exact (output_frame_lookup wr wi 0 ltac:(lia))|].
  destruct (word_output_word (wr !!! 0%nat) (wi !!! 0%nat) 0) as [-> ->].
  rewrite (list_lookup_total_correct _ _ _ B0r).
  rewrite (list_lookup_total_correct _ _ _ B0i).
  rewrite !(wrap32_id (Fixed.wrap32 _)) by apply wrap32_range.
  rewrite (sum_perm _ _ Pr), (sum_perm _ _ Pi). split; reflexivity.
Qed.

Lemma fft_bin0_is_sum_witness :
  ∃ words val,
    fft misframed_frame [] = Some ([], words) ∧
    words !! 0%nat = Some val ∧
    word_real val = Fixed.wrap32 (Sums.sum (word_real <$> misframed_frame)) ∧
    word_imag val = Fixed.wrap32 (Sums.sum (word_imag <$> misframed_frame)).
Proof. apply fft_bin0_is_sum. reflexivity. Defined.

(** ** Writer and reader *)

(** X15. What the writer emits for a pair of buffers of valid Q16.16
    values, the reader turns back into the same pair, leaving the rest of
    the stream in place and overwriting whatever its buffers held. *)
Theorem write_then_read (real_buf imag_buf buf1 buf2 : list Z) (rest : stream) :
  length real_buf = 256%nat → length imag_buf = 256%nat →
  length buf1 = 256%nat → length buf2 = 256%nat →
  Forall Fixed.in_range real_buf → Forall Fixed.in_range imag_buf →
  ∃ words,
    write_output real_buf imag_buf [] = Some words ∧
    read_input (words ++ rest) buf1 buf2 = Some (rest, real_buf, imag_buf).
Proof.
  intros Hlr Hli Hl1 Hl2 Hr Hi.
  exists (output_frame real_buf imag_buf). split.
  - now rewrite write_output_eq by assumption.
  - rewrite read_input_eq
      by (assumption || apply output_frame_length).
    now rewrite output_frame_real, output_frame_imag by assumption.
Qed.

Lemma write_then_read_witness :
  ∃ words,
    write_output (seqZ 0 256) (seqZ (-256) 256) [] = Some words ∧
    read_input (words ++ misframed_frame) fresh_buf (seqZ 5 256)
    = Some (misframed_frame, seqZ 0 256, seqZ (-256) 256).
Proof.
  apply write_then_read; try reflexivity; apply Forall_in_range; reflexivity.
Defined.

Lemma Forall_data_64 (frame : stream) :
  forallb (λ val, (0 <=? data val) && (data val <? 2 ^ 64)) frame = true →
  Forall (λ val, 0 <= data val < 2 ^ 64) frame.
Proof.
  induction frame as [|val frame IH]; simpl; intros H; constructor.
  - apply andb_prop in H as [H _]. lia.
  - apply IH. now apply andb_prop in H as [_ H].
Qed.

(** X16. Writing out the buffers that the reader filled from a frame of
    64-bit words reproduces the [data] of every word of the frame. *)
Theorem read_then_write (frame : stream) (buf1 buf2 : list Z) :
  length frame = 256%nat →
  length buf1 = 256%nat → length buf2 = 256%nat →
  Forall (λ val, 0 <= data val < 2 ^ 64) frame →
  ∃ real_buf imag_buf words,
    read_input frame buf1 buf2 = Some ([], real_buf, imag_buf) ∧
    write_output real_buf imag_buf [] = Some words ∧
    data <$> words = data <$> frame.
Proof.
  intros Hf Hl1 Hl2 Hd.
  exists (word_real <$> frame), (word_imag <$> frame),
    (output_frame (word_real <$> frame) (word_imag <$> frame)).
  split; [|split].
  - rewrite <- (app_nil_r frame) at 1. now apply read_input_eq.
  - now rewrite write_output_eq by (rewrite length_fmap; assumption).
  - apply list_eq. intros n. rewrite !list_lookup_fmap.
    destruct (decide (n < 256)%nat) as [Hn|Hn].
    + rewrite <- (Nat2Z.id n) at 1. rewrite output_frame_lookup by lia.
      rewrite Nat2Z.id.
      destruct (lookup_lt_is_Some_2 frame n) as [val Hval]; [lia|].
      assert ((word_real <$> frame) !! n = Some (word_real val)) as Er
        by now rewrite list_lookup_fmap, Hval.
      assert ((word_imag <$> frame) !! n = Some (word_imag val)) as Ei
        by now rewrite list_lookup_fmap, Hval.
      rewrite (list_lookup_total_correct _ _ _ Er).
      rewrite (list_lookup_total_correct _ _ _ Ei), Hval.
      cbn [fmap option_fmap option_map output_word data]. f_equal.
      apply pack_unpack_id. eapply Forall_lookup_1 in Hd; eassumption.
    + rewrite !lookup_ge_None_2; [reflexivity| |];
        rewrite ?output_frame_length; lia.
Qed.

Lemma read_then_write_witness :
  ∃ real_buf imag_buf words,
    read_input misframed_frame fresh_buf fresh_buf
    = Some ([], real_buf, imag_buf) ∧
    write_output real_buf imag_buf [] = Some words ∧
    data <$> words = data <$> misframed_frame.
Proof.
  apply read_then_write; try reflexivity. apply Forall_data_64. reflexivity.
Defined.

(** ** The twiddle tables as data *)

(** X17. Every entry of the twiddle tables is at most 1.0 in magnitude,
    every pair [(TW_REAL[k], TW_IMAG[k])] has squared modulus within
    [2^18] of [2^32] (modulus 1.0 to two units in the last place), and
    the imaginary table is the real table a quarter turn ahead:
    [TW_IMAG[k] = TW_REAL[k + 64]] for [k < 64]. *)
Theorem twiddle_tables_shape (k : nat) :
  (k < 128)%nat →
  ∃ r i,
    TW_REAL !! k = Some r ∧ TW_IMAG !! k = Some i ∧
    Z.abs r <= 2 ^ 16 ∧ Z.abs i <= 2 ^ 16 ∧
    Z.abs (r * r + i * i - 2 ^ 32) < 2 ^ 18 ∧
    ((k < 64)%nat → TW_REAL !! (k + 64)%nat = Some i).
Proof.
  intros Hk.
  assert (forallb twiddle_entry_ok (seq 0 128) = true) as H
    by (vm_compute; reflexivity).
  rewrite forallb_forall in H. specialize (H k ltac:(apply in_seq; lia)).
  unfold twiddle_entry_ok in H.
  destruct (TW_REAL !! k) as [r|]; [|discriminate].
  destruct (TW_IMAG !! k) as [i|]; [|discriminate].
  exists r, i.
  apply andb_prop in H as [H H4]. apply andb_prop in H as [H H3].
  apply andb_prop in H as [H1 H2].
  repeat split; try lia.
  intros Hk'. apply orb_prop in H4 as [H4|H4];
    [apply Nat.leb_le in H4; lia|].
  now apply bool_decide_eq_true in H4.
Qed.

Lemma twiddle_tables_shape_witness :
  ∃ r i,
    TW_REAL !! 10%nat = Some r ∧ TW_IMAG !! 10%nat = Some i ∧
    Z.abs r <= 2 ^ 16 ∧ Z.abs i <= 2 ^ 16 ∧
    Z.abs (r * r + i * i - 2 ^ 32) < 2 ^ 18 ∧
    ((10 < 64)%nat → TW_REAL !! (10 + 64)%nat = Some i).
Proof. apply twiddle_tables_shape. lia. Defined.
